(** * Existential Graphs Reasoner: a shallow embedding of [aegraph.cpp]

    The C++ class [AEGraph] (a sheet of assertion or a cut, holding atoms and
    nested cuts) is modelled as a record; its text constructor, [repr],
    [sort], the path enumerators and the three rule engines are translated
    function by function.

    Conventions of the embedding:
    - [std::string] is [string]; [operator<] on strings is [String.ltb]
      (lexicographic on byte values).
    - [int] values (indices, the bracket counter, the nesting level) count
      elements and nesting, stay far from the bounds of the type, and are
      [Z]; vectors are lists, read with [!!] after an explicit range test.
      An out-of-range read or erase, which is undefined behaviour in C++,
      and a failed [assert], are [None].
    - Loops that have no structural bound ([split_level], the recursive
      constructor) take a fuel argument; the wrappers pass a fuel that the
      lemmas below show sufficient. *)

From Stdlib Require Import ZArith Ascii String List Lia Bool.
From stdpp Require Import base list strings.

#[local] Set Warnings "-register-all".

Import ListNotations.
Local Open Scope string_scope.
Local Open Scope Z_scope.
Local Open Scope list_scope.

(** * The program *)

(** ** Data model *)

(** [class AEGraph]: [is_SA], [atoms], [subgraphs]. *)
Inductive AEGraph : Type :=
  mkAEGraph { is_SA : bool; atoms : list string; subgraphs : list AEGraph }.

Definition num_subgraphs (g : AEGraph) : Z := Z.of_nat (length (subgraphs g)).
Definition num_atoms (g : AEGraph) : Z := Z.of_nat (length (atoms g)).
Definition size (g : AEGraph) : Z := num_atoms g + num_subgraphs g.

(** [v[i]] for an [int] index: defined only inside the vector. *)
Definition at_index {A} (v : list A) (i : Z) : option A :=
  if (0 <=? i) && (i <? Z.of_nat (length v)) then v !! Z.to_nat i else None.

(** [v.erase(v.begin() + i)]: defined only inside the vector. *)
Definition erase_index {A} (v : list A) (i : Z) : option (list A) :=
  if (0 <=? i) && (i <? Z.of_nat (length v)) then Some (delete (Z.to_nat i) v)
  else None.

(** ** Text helpers *)

Definition is_space (c : ascii) : bool :=
  (c =? " ")%char || (c =? "010")%char || (c =? "013")%char || (c =? "009")%char.

(** [s.erase(0, s.find_first_not_of(" \n\r\t"))] *)
Fixpoint erase_leading (s : string) : string :=
  match s with
  | EmptyString => EmptyString
  | String c r => if is_space c then erase_leading r else s
  end.

(** [s.erase(s.find_last_not_of(" \n\r\t") + 1)] *)
Fixpoint erase_trailing (s : string) : string :=
  match s with
  | EmptyString => EmptyString
  | String c r =>
      match erase_trailing r with
      | EmptyString => if is_space c then EmptyString else String c EmptyString
      | r' => String c r'
      end
  end.

Definition strip (s : string) : string := erase_trailing (erase_leading s).

(** The loop of [split_first]: [pre] is [s.substr(0, i)], [rest] is what is
    left to scan from position [i], [numOpen] the bracket counter. *)
Fixpoint split_first_loop (delimiter : ascii) (numOpen : Z) (pre rest : string)
  : string * string :=
  match rest with
  | EmptyString => (strip pre, EmptyString)
  | String c r =>
      if (c =? delimiter)%char && (numOpen =? 0) then (strip pre, strip r)
      else
        let numOpen := if (c =? "[")%char then numOpen + 1 else numOpen in
        let numOpen := if (c =? "]")%char then numOpen - 1 else numOpen in
        split_first_loop delimiter numOpen (pre +:+ String c EmptyString) r
  end.

Definition split_first (s : string) : string * string :=
  split_first_loop "," 0 EmptyString s.

(** [split_level]: the [while (true)] loop, one iteration per unit of fuel. *)
Fixpoint split_level_fuel (fuel : nat) (snd : string) : option (list string) :=
  match fuel with
  | O => None
  | S fuel' =>
      let p := split_first snd in
      match p.2 with
      | EmptyString => Some [p.1]
      | snd' => option_map (cons p.1) (split_level_fuel fuel' snd')
      end
  end.

Definition split_level (s : string) : option (list string) :=
  split_level_fuel (S (String.length s)) s.

(** ** Rendering *)

Definition concat_all (l : list string) : string := foldr String.append "" l.

(** [AEGraph::repr] *)
Fixpoint repr (g : AEGraph) : string :=
  match g with
  | mkAEGraph sa ats sgs =>
      let left := if sa then "(" else "[" in
      let right := if sa then ")" else "]" in
      let result := concat_all (map (fun sg => repr sg +:+ ", ") sgs) in
      match ats with
      | [] =>
          match sgs with
          | [] => left +:+ result +:+ right
          | _ => left +:+ substring 0 (String.length result - 2) result +:+ right
          end
      | _ => left +:+ (result +:+ String.concat ", " ats) +:+ right
      end
  end.

(** [operator<], [operator==] and [operator!=] compare renderings. *)
Definition operator_lt (a b : AEGraph) : bool := String.ltb (repr a) (repr b).
Definition operator_eq (a b : AEGraph) : bool := String.eqb (repr a) (repr b).
Definition operator_ne (a b : AEGraph) : bool := negb (operator_eq a b).

(** ** Sorting *)

(** [std::sort] with a strict order [lt]: modelled by insertion, which
    yields a sorted permutation as every implementation must. *)
Fixpoint sort_insert {A} (lt : A -> A -> bool) (x : A) (l : list A) : list A :=
  match l with
  | [] => [x]
  | y :: l' => if lt y x then y :: sort_insert lt x l' else x :: l
  end.

Definition std_sort {A} (lt : A -> A -> bool) (l : list A) : list A :=
  foldr (sort_insert lt) [] l.

(** [std::is_sorted]: no element is smaller than its predecessor. *)
Fixpoint is_sorted {A} (lt : A -> A -> bool) (l : list A) : bool :=
  match l with
  | [] => true
  | x :: l' =>
      match l' with
      | [] => true
      | y :: _ => negb (lt y x) && is_sorted lt l'
      end
  end.

(** [AEGraph::sort] *)
Fixpoint sort (g : AEGraph) : AEGraph :=
  match g with
  | mkAEGraph sa ats sgs =>
      mkAEGraph sa (std_sort String.ltb ats) (std_sort operator_lt (map sort sgs))
  end.

(** A graph is canonical when every level has sorted atoms and its children
    sorted by rendering. *)
Fixpoint canonical (g : AEGraph) : bool :=
  match g with
  | mkAEGraph _ ats sgs =>
      is_sorted String.ltb ats && is_sorted operator_lt sgs && forallb canonical sgs
  end.

(** ** Construction from text *)

(** [s[0]]; on an empty [std::string] this is the terminating NUL. *)
Definition first_char (s : string) : ascii :=
  match s with
  | EmptyString => zero
  | String c _ => c
  end.

(** [s[s.size() - 1]], undefined on the empty string. *)
Definition last_char (s : string) : option ascii :=
  String.get (String.length s - 1) s.

(** The loop that files each piece under [atoms] or [subgraphs]. *)
Fixpoint add_elements (build : string -> option AEGraph) (v : list string)
    (ats : list string) (sgs : list AEGraph) : option (list string * list AEGraph) :=
  match v with
  | [] => Some (ats, sgs)
  | s :: v' =>
      if negb (first_char s =? "[")%char then add_elements build v' (ats ++ [s]) sgs
      else
        match build s with
        | None => None
        | Some sg => add_elements build v' ats (sgs ++ [sg])
        end
  end.

(** [AEGraph::AEGraph(std::string)] *)
Fixpoint AEGraph_fuel (fuel : nat) (representation : string) : option AEGraph :=
  match fuel with
  | O => None
  | S fuel' =>
      match representation, last_char representation with
      | String left_sep _, Some right_sep =>
          if ((left_sep =? "(")%char && (right_sep =? ")")%char)
             || ((left_sep =? "[")%char && (right_sep =? "]")%char)
          then
            let sa := (left_sep =? "(")%char in
            let inner :=
              substring 1 (String.length representation - 2) representation in
            match split_level inner with
            | None => None
            | Some v =>
                match add_elements (AEGraph_fuel fuel') v [] [] with
                | None => None
                | Some (ats, sgs) => Some (sort (mkAEGraph sa ats sgs))
                end
            end
          else None
      | _, _ => None
      end
  end.

(** The constructor called on a text: each nested call reads a strictly
    shorter text, so the length of the text is fuel enough. *)
Definition AEGraph_of_string (representation : string) : option AEGraph :=
  AEGraph_fuel (String.length representation) representation.

(** [AEGraph::operator[]] *)
Definition operator_subscript (g : AEGraph) (index : Z) : option AEGraph :=
  if index <? num_subgraphs g then at_index (subgraphs g) index
  else if index <? num_subgraphs g + num_atoms g then
    match at_index (atoms g) (index - num_subgraphs g) with
    | Some a => AEGraph_of_string ("(" +:+ a +:+ ")")
    | None => None
    end
  else AEGraph_of_string "()".

(** ** Containment and paths *)

(** A counted [for] loop over a vector, threading the loop state. *)
Definition for_loop {A S} (body : Z -> A -> S -> S) : Z -> list A -> S -> S :=
  fix go (i : Z) (v : list A) (st : S) : S :=
    match v with
    | [] => st
    | x :: v' => go (i + 1) v' (body i x st)
    end.

(** [for (auto& v : r) v.insert(v.begin(), i)] *)
Definition prepend (i : Z) (r : list (list Z)) : list (list Z) := map (cons i) r.

(** [AEGraph::contains(const std::string)] *)
Fixpoint contains_atom (other : string) (g : AEGraph) : bool :=
  match g with
  | mkAEGraph _ ats sgs =>
      if existsb (String.eqb other) ats then true
      else existsb (contains_atom other) sgs
  end.

(** [AEGraph::contains(const AEGraph&)] *)
Fixpoint contains_graph (other : AEGraph) (g : AEGraph) : bool :=
  match g with
  | mkAEGraph _ ats sgs =>
      if existsb (fun sg => operator_eq sg other) sgs then true
      else existsb (contains_graph other) sgs
  end.

(** [AEGraph::get_paths_to(const std::string)] *)
Fixpoint get_paths_to_atom (other : string) (g : AEGraph) : list (list Z) :=
  match g with
  | mkAEGraph _ ats sgs =>
      let len_subgraphs := num_subgraphs g in
      let paths := [] in
      let paths :=
        for_loop (fun i a paths =>
          if String.eqb a other && (1 <? size g)
          then paths ++ [[i + len_subgraphs]] else paths) 0 ats paths in
      for_loop (fun i sg paths =>
        if contains_atom other sg
        then paths ++ prepend i (get_paths_to_atom other sg) else paths) 0 sgs paths
  end.

(** [AEGraph::get_paths_to(const AEGraph&)] *)
Fixpoint get_paths_to_graph (other : AEGraph) (g : AEGraph) : list (list Z) :=
  match g with
  | mkAEGraph _ ats sgs =>
      for_loop (fun i sg paths =>
        if operator_eq sg other && (1 <? size g)
        then paths ++ [[i]]
        else paths ++ prepend i (get_paths_to_graph other sg)) 0 sgs []
  end.

(** ** Double cut *)

(** [AEGraph::possible_double_cuts] *)
Fixpoint possible_double_cuts (g : AEGraph) : list (list Z) :=
  match g with
  | mkAEGraph _ ats sgs =>
      for_loop (fun i sg road =>
        let road :=
          if (num_subgraphs sg =? 1) && (num_atoms sg =? 0)
          then road ++ [[i]] else road in
        road ++ prepend i (possible_double_cuts sg)) 0 sgs []
  end.

(** [where.capacity()] as each helper reads it: [where] is a by-value
    parameter, a fresh copy of the caller's vector, and a copied vector
    holds exactly its elements. *)
Definition capacity (where_ : list Z) : Z := Z.of_nat (length where_).

(** [node.subgraphs[index] = sub] after the recursive call returns. *)
Definition set_subgraph (node : AEGraph) (index : Z) (sub : AEGraph) : AEGraph :=
  mkAEGraph (is_SA node) (atoms node) (<[Z.to_nat index := sub]> (subgraphs node)).

(** [AEGraph::double_cut_helper].  On an empty address the capacity is not 1
    and [where[0]] is read out of range. *)
Fixpoint double_cut_helper (where_ : list Z) (node : AEGraph) : option AEGraph :=
  match where_ with
  | [] => None
  | w0 :: rest =>
      if negb (capacity where_ =? 1) then
        let index := w0 in
        match at_index (subgraphs node) index with
        | None => None
        | Some sub =>
            match double_cut_helper rest sub with
            | None => None
            | Some sub' => Some (set_subgraph node index sub')
            end
        end
      else
        match at_index (subgraphs node) w0 with
        | None => None
        | Some outer =>
            match at_index (subgraphs outer) 0 with
            | None => None
            | Some aux =>
                let sgs := subgraphs node ++ subgraphs aux in
                let ats := atoms node ++ atoms aux in
                match erase_index sgs w0 with
                | None => None
                | Some sgs' => Some (mkAEGraph (is_SA node) ats sgs')
                end
            end
        end
  end.

(** [AEGraph::double_cut] *)
Definition double_cut (g : AEGraph) (where_ : list Z) : option AEGraph :=
  double_cut_helper where_ g.

(** ** Erasure *)

(** One candidate of [possible_erasures]: the [push_back] and the two
    guarded [pop_back]s. *)
Definition erasure_candidate (level : Z) (g : AEGraph) (i : Z)
    (road : list (list Z)) : list (list Z) :=
  if negb (Z.rem level 2 =? 0) then
    let road := road ++ [[i]] in
    let road :=
      if negb (level =? -1) && ((num_subgraphs g =? 0) && (num_atoms g =? 1))
         && negb (length road =? 0)%nat
      then removelast road else road in
    let road :=
      if negb (level =? -1) && ((num_subgraphs g =? 1) && (num_atoms g =? 0))
         && negb (length road =? 0)%nat
      then removelast road else road in
    road
  else road.

(** [AEGraph::possible_erasures]: the loop runs over the child indices and
    then over the atom indices; only the former recurse. *)
Fixpoint possible_erasures (level : Z) (g : AEGraph) : list (list Z) :=
  match g with
  | mkAEGraph _ ats sgs =>
      let road := [] in
      let road :=
        for_loop (fun i sg road =>
          let road := erasure_candidate level g i road in
          road ++ prepend i (possible_erasures (level + 1) sg)) 0 sgs road in
      for_loop (fun i _ road =>
        erasure_candidate level g i road) (num_subgraphs g) ats road
  end.

(** [AEGraph::erase_helper].  [atoms.begin() - num_subgraphs() + where[0]]
    is the atom at offset [where[0] - num_subgraphs()]; the last [else] has
    no counterpart in the source, whose two tests cover every case. *)
Fixpoint erase_helper (where_ : list Z) (node : AEGraph) : option AEGraph :=
  match where_ with
  | [] => None
  | w0 :: rest =>
      if negb (capacity where_ =? 1) then
        let index := w0 in
        match at_index (subgraphs node) index with
        | None => None
        | Some sub =>
            match erase_helper rest sub with
            | None => None
            | Some sub' => Some (set_subgraph node index sub')
            end
        end
      else if num_subgraphs node - w0 <=? 0 then
        match erase_index (atoms node) (w0 - num_subgraphs node) with
        | None => None
        | Some ats => Some (mkAEGraph (is_SA node) ats (subgraphs node))
        end
      else if 0 <? num_subgraphs node - w0 then
        match erase_index (subgraphs node) w0 with
        | None => None
        | Some sgs => Some (mkAEGraph (is_SA node) (atoms node) sgs)
        end
      else Some node
  end.

(** [AEGraph::erase] *)
Definition erase (g : AEGraph) (where_ : list Z) : option AEGraph :=
  erase_helper where_ g.

(** ** Deiteration *)

(** [AEGraph::possible_deiterations] *)
Definition possible_deiterations (g : AEGraph) : list (list Z) :=
  let road := [] in
  let road :=
    for_loop (fun i sg_i road =>
      for_loop (fun j sg_j road =>
        if negb (i =? j)
        then road ++ prepend j (get_paths_to_graph sg_i sg_j)
        else road) 0 (subgraphs g) road) 0 (subgraphs g) road in
  for_loop (fun i atom_i road =>
    for_loop (fun j sg_j road =>
      road ++ prepend j (get_paths_to_atom atom_i sg_j)) 0 (subgraphs g) road)
    0 (atoms g) road.

(** [AEGraph::deiterate_helper], line for line as [erase_helper]. *)
Fixpoint deiterate_helper (where_ : list Z) (node : AEGraph) : option AEGraph :=
  match where_ with
  | [] => None
  | w0 :: rest =>
      if negb (capacity where_ =? 1) then
        let index := w0 in
        match at_index (subgraphs node) index with
        | None => None
        | Some sub =>
            match deiterate_helper rest sub with
            | None => None
            | Some sub' => Some (set_subgraph node index sub')
            end
        end
      else if num_subgraphs node - w0 <=? 0 then
        match erase_index (atoms node) (w0 - num_subgraphs node) with
        | None => None
        | Some ats => Some (mkAEGraph (is_SA node) ats (subgraphs node))
        end
      else if 0 <? num_subgraphs node - w0 then
        match erase_index (subgraphs node) w0 with
        | None => None
        | Some sgs => Some (mkAEGraph (is_SA node) (atoms node) sgs)
        end
      else Some node
  end.

(** [AEGraph::deiterate] *)
Definition deiterate (g : AEGraph) (where_ : list Z) : option AEGraph :=
  deiterate_helper where_ g.

(** * Definitions for the statements *)

(** ** Addresses, as the specification reads them

    An address descends one child index per level; its last index names the
    target inside the node reached by the indices before it. *)

(** The node reached by descending along [path]. *)
Fixpoint node_at (g : AEGraph) (path : list Z) : option AEGraph :=
  match path with
  | [] => Some g
  | i :: path' =>
      match at_index (subgraphs g) i with
      | None => None
      | Some sub => node_at sub path'
      end
  end.

(** [g] with the node reached along [path] replaced by its image under [f]. *)
Fixpoint update_at (f : AEGraph -> AEGraph) (path : list Z) (g : AEGraph) : AEGraph :=
  match path with
  | [] => f g
  | i :: path' =>
      match at_index (subgraphs g) i with
      | None => g
      | Some sub => set_subgraph g i (update_at f path' sub)
      end
  end.

(** What an index of the unified index space names inside a node: a child
    below [num_subgraphs], an atom from there on. *)
Definition element_at (node : AEGraph) (i : Z) : option (AEGraph + string) :=
  if i <? num_subgraphs node then inl <$> at_index (subgraphs node) i
  else inr <$> at_index (atoms node) (i - num_subgraphs node).

(** The parent's content after a double cut at child [i] is removed: the
    cut leaves the children and what [inner] held joins the parent. *)
Definition splice (i : Z) (inner parent : AEGraph) : AEGraph :=
  mkAEGraph (is_SA parent) (atoms parent ++ atoms inner)
    (delete (Z.to_nat i) (subgraphs parent) ++ subgraphs inner).

(** A node with the element at unified index [i] deleted. *)
Definition remove_element (i : Z) (node : AEGraph) : AEGraph :=
  if i <? num_subgraphs node
  then mkAEGraph (is_SA node) (atoms node) (delete (Z.to_nat i) (subgraphs node))
  else mkAEGraph (is_SA node)
         (delete (Z.to_nat (i - num_subgraphs node)) (atoms node)) (subgraphs node).

(** The sole content of a node: one child and no atom, or one atom and no
    child. *)
Definition sole_content (node : AEGraph) : bool :=
  ((num_subgraphs node =? 0) && (num_atoms node =? 1))
  || ((num_subgraphs node =? 1) && (num_atoms node =? 0)).

(** The paths appended by a loop whose body only appends. *)
Fixpoint collect {A B} (f : Z -> A -> list B) (i : Z) (v : list A) : list B :=
  match v with
  | [] => []
  | x :: v' => f i x ++ collect f (i + 1) v'
  end.

(** ** The enumerators as collected paths *)

(** A double cut: a cut that holds one cut and nothing else. *)
Definition double_cut_shape (sg : AEGraph) : bool :=
  (num_subgraphs sg =? 1) && (num_atoms sg =? 0).

(** The paths one iteration of [possible_erasures] keeps for index [i]. *)
Definition kept_candidate (level : Z) (g : AEGraph) (i : Z) : list (list Z) :=
  if negb (Z.rem level 2 =? 0) && ((level =? -1) || negb (sole_content g))
  then [[i]] else [].

(** ** The appliers descend to the parent of the last index *)

(** A helper on the address [path ++ [i]]: the node reached along [path]
    goes through the helper's call on [[i]] and is put back in its place. *)
Definition through_path (last_step : AEGraph -> option AEGraph)
    (g : AEGraph) (path : list Z) : option AEGraph :=
  match node_at g path with
  | None => None
  | Some p =>
      match last_step p with
      | None => None
      | Some p' => Some (update_at (fun _ => p') path g)
      end
  end.

(** ** Where the enumerated addresses point *)

(** The element an address names: descend through the children along all
    indices but the last, which is read in the unified index space. *)
Fixpoint resolve (g : AEGraph) (a : list Z) : option (AEGraph + string) :=
  match a with
  | [] => None
  | i :: a' =>
      match a' with
      | [] => element_at g i
      | _ =>
          match at_index (subgraphs g) i with
          | None => None
          | Some sub => resolve sub a'
          end
      end
  end.

(** ** The three rules, enumerator and applier paired *)

(** The rules; erasure carries the level its enumeration starts from. *)
Inductive rule : Type :=
  | double_cut_rule
  | erasure_rule (level : Z)
  | deiteration_rule.

Definition enumerator (r : rule) (g : AEGraph) : list (list Z) :=
  match r with
  | double_cut_rule => possible_double_cuts g
  | erasure_rule level => possible_erasures level g
  | deiteration_rule => possible_deiterations g
  end.

Definition applier (r : rule) (g : AEGraph) (a : list Z) : option AEGraph :=
  match r with
  | double_cut_rule => double_cut g a
  | erasure_rule _ => erase g a
  | deiteration_rule => deiterate g a
  end.

(** The graph of [(A, [A, D], [[A]], [[[E]], [[F, [G]]]])], canonical. *)
Definition sample_graph : AEGraph :=
  mkAEGraph true ["A"]
    [ mkAEGraph false ["A"; "D"] [];
      mkAEGraph false [] [mkAEGraph false ["A"] []];
      mkAEGraph false []
        [ mkAEGraph false [] [mkAEGraph false ["E"] []];
          mkAEGraph false [] [mkAEGraph false ["F"] [mkAEGraph false ["G"] []]] ] ].

(** ** Whitespace *)

(** A text that [strip] leaves alone: not empty, no space at either end. *)
Definition tight (s : string) : Prop :=
  s <> "" /\ is_space (first_char s) = false /\ erase_trailing s = s.

(** ** Scanning for the first delimiter *)

(** The bracket counter of [split_first] after reading [c]. *)
Definition count_bracket (numOpen : Z) (c : ascii) : Z :=
  let numOpen := if (c =? "[")%char then numOpen + 1 else numOpen in
  if (c =? "]")%char then numOpen - 1 else numOpen.

(** The counter after reading all of [s]. *)
Fixpoint depth_after (numOpen : Z) (s : string) : Z :=
  match s with
  | EmptyString => numOpen
  | String c r => depth_after (count_bracket numOpen c) r
  end.

(** No comma of [s] is met with the counter at zero. *)
Fixpoint unsplit (numOpen : Z) (s : string) : bool :=
  match s with
  | EmptyString => true
  | String c r =>
      negb ((c =? ",")%char && (numOpen =? 0)) && unsplit (count_bracket numOpen c) r
  end.

(** [s] passes through the scan started at depth [d]: no split, and the
    counter is back at [d] after it. *)
Definition level_piece (d : Z) (s : string) : Prop :=
  unsplit d s = true /\ depth_after d s = d.

(** ** Plain atoms *)

(** A character an atom may hold without touching the scan. *)
Definition plain_char (c : ascii) : bool :=
  negb ((c =? ",")%char || (c =? "[")%char || (c =? "]")%char).

(** Every character of [s] is plain. *)
Fixpoint plain_text (s : string) : bool :=
  match s with
  | EmptyString => true
  | String c r => plain_char c && plain_text r
  end.

(** A bare identifier: not empty, no surrounding whitespace, no comma and
    no bracket. *)
Definition plain_atom (a : string) : bool :=
  negb (String.eqb a "") && String.eqb (strip a) a && plain_text a.

(** Every atom is a bare identifier and every child is a cut, at every
    level. *)
Fixpoint plain (g : AEGraph) : bool :=
  match g with
  | mkAEGraph _ ats sgs =>
      forallb plain_atom ats && forallb (fun c => negb (is_SA c) && plain c) sgs
  end.

(** ** The rendering as joined pieces *)

(** The elements of a node in rendering order: children, then atoms. *)
Definition pieces (g : AEGraph) : list string := map repr (subgraphs g) ++ atoms g.

(** The delimiters [repr] puts around a node. *)
Definition left_delimiter (g : AEGraph) : ascii := if is_SA g then "(" else "[".
Definition right_delimiter (g : AEGraph) : ascii := if is_SA g then ")" else "]".

(** ** Splitting a rendered level *)

(** A piece that [split_first] cuts off whole. *)
Definition good_piece (p : string) : Prop := tight p /\ level_piece 0 p.

(** ** Nodes without content *)

(** The graph the constructor builds from the rendering of [g]: a node
    without content comes back holding the empty atom. *)
Fixpoint pad_empty (g : AEGraph) : AEGraph :=
  match g with
  | mkAEGraph sa ats sgs =>
      match ats, sgs with
      | [], [] => mkAEGraph sa [""] []
      | _, _ => mkAEGraph sa ats (map pad_empty sgs)
      end
  end.

(** ** The subscript operator *)

(** An atom that the constructor reads back as itself when wrapped in
    parentheses. *)
Definition reads_as_atom (a : string) : Prop :=
  split_first a = (a, "") /\ (first_char a =? "[")%char = false.

(** ** The atoms of a constructed graph *)

(** [P] holds of every atom, at every level. *)
Inductive every_atom (P : string -> Prop) : AEGraph -> Prop :=
  | every_atom_node (sa : bool) (ats : list string) (sgs : list AEGraph) :
      Forall P ats -> Forall (every_atom P) sgs ->
      every_atom P (mkAEGraph sa ats sgs).

(** Every node, at every level, holds an atom or a child. *)
Fixpoint has_content (g : AEGraph) : bool :=
  match g with
  | mkAEGraph _ ats sgs =>
      negb ((length ats + length sgs =? 0)%nat) && forallb has_content sgs
  end.

(** ** More vocabulary for the statements *)

(** Every character of [s] is one [strip] removes. *)
Fixpoint all_space (s : string) : bool :=
  match s with
  | EmptyString => true
  | String c r => is_space c && all_space r
  end.

(** Every node below [g], at any depth, is a cut. *)
Fixpoint cuts_below (g : AEGraph) : bool :=
  match g with
  | mkAEGraph _ _ sgs => forallb (fun c => negb (is_SA c) && cuts_below c) sgs
  end.

(** The atoms of [g], its own first and then those of each child in turn. *)
Fixpoint all_atoms (g : AEGraph) : list string :=
  match g with
  | mkAEGraph _ ats sgs => ats ++ concat (map all_atoms sgs)
  end.

(** * Proofs *)

(** ** Induction over nested cuts *)

Lemma AEGraph_nested_ind (P : AEGraph -> Prop) :
  (forall sa ats sgs, Forall P sgs -> P (mkAEGraph sa ats sgs)) ->
  forall g, P g.
Proof.
  intros step. fix IH 1. intros [sa ats sgs]. apply step.
  induction sgs as [|sg sgs IHsgs]; constructor; [apply IH | exact IHsgs].
Qed.

(** ** Vectors and loops *)

(** Case analysis on the first integer test of the goal. *)
Ltac split_on spec x y := destruct (spec x y).

Ltac case_test :=
  match goal with
  | |- context [(?x =? ?y)%Z] => split_on Z.eqb_spec x y
  | |- context [(?x <? ?y)%Z] => split_on Z.ltb_spec x y
  | |- context [(?x <=? ?y)%Z] => split_on Z.leb_spec x y
  end.

Lemma at_index_of_nat {A} (v : list A) (k : nat) :
  at_index v (Z.of_nat k) = v !! k.
Proof.
  unfold at_index. rewrite Nat2Z.id.
  repeat case_test; simpl; try done; try lia.
  symmetry. apply lookup_ge_None. lia.
Qed.

Lemma at_index_Some {A} (v : list A) (i : Z) (x : A) :
  at_index v i = Some x <-> 0 <= i < Z.of_nat (length v) /\ v !! Z.to_nat i = Some x.
Proof.
  unfold at_index. repeat case_test; simpl; split; intros Hx;
    try discriminate; try (split; [lia | done]);
    try (destruct Hx as [? ?]; lia); by destruct Hx.
Qed.

Lemma at_index_in_range {A} (v : list A) (i : Z) :
  0 <= i < Z.of_nat (length v) -> exists x, at_index v i = Some x.
Proof.
  intros Hi. destruct (lookup_lt_is_Some_2 v (Z.to_nat i)) as [x Hx]; [lia|].
  exists x. apply at_index_Some. done.
Qed.

Lemma erase_index_in_range {A} (v : list A) (i : Z) :
  0 <= i < Z.of_nat (length v) -> erase_index v i = Some (delete (Z.to_nat i) v).
Proof.
  intros Hi. unfold erase_index. repeat case_test; simpl; try done; lia.
Qed.

Lemma delete_app_inside {A} (l1 l2 : list A) (i : nat) :
  (i < length l1)%nat -> delete i (l1 ++ l2) = delete i l1 ++ l2.
Proof.
  revert i. induction l1 as [|x l1 IH]; intros [|i] Hi; simpl in *; try lia; try done.
  f_equal. apply IH. lia.
Qed.

Lemma for_loop_collect {A B} (body : Z -> A -> list B -> list B)
    (f : Z -> A -> list B) :
  (forall i x st, body i x st = st ++ f i x) ->
  forall v i st, for_loop body i v st = st ++ collect f i v.
Proof.
  intros Hbody v. induction v as [|x v IH]; intros i st; simpl.
  - by rewrite app_nil_r.
  - rewrite IH, Hbody. by rewrite <- app_assoc.
Qed.

Lemma elem_of_collect {A B} (f : Z -> A -> list B) (v : list A) (i : Z) (b : B) :
  b ∈ collect f i v <->
  exists (k : nat) (x : A), v !! k = Some x /\ b ∈ f (i + Z.of_nat k) x.
Proof.
  revert i. induction v as [|x v IH]; intros i; simpl.
  - split; [intros H; inversion H | intros (k & y & Hk & _); by destruct k].
  - rewrite elem_of_app, IH. split.
    + intros [H | (k & y & Hk & Hb)].
      * exists 0%nat, x. split; [done|]. by replace (i + Z.of_nat 0) with i by lia.
      * exists (S k), y. split; [done|].
        by replace (i + Z.of_nat (S k)) with (i + 1 + Z.of_nat k) by lia.
    + intros ([|k] & y & Hk & Hb).
      * left. simpl in Hk. injection Hk as ->.
        by replace (i + Z.of_nat 0) with i in Hb by lia.
      * right. exists k, y. split; [done|].
        by replace (i + 1 + Z.of_nat k) with (i + Z.of_nat (S k)) by lia.
Qed.

Lemma elem_of_prepend (i : Z) (r : list (list Z)) (a : list Z) :
  a ∈ prepend i r <-> exists a', a = i :: a' /\ a' ∈ r.
Proof.
  unfold prepend. rewrite list_elem_of_fmap. split; intros (a' & ? & ?); eauto.
Qed.

(** ** The enumerators as collected paths *)

Lemma possible_double_cuts_eq (g : AEGraph) :
  possible_double_cuts g =
  collect (fun i sg =>
    (if double_cut_shape sg then [[i]] else [])
    ++ prepend i (possible_double_cuts sg)) 0 (subgraphs g).
Proof.
  destruct g as [sa ats sgs]; simpl.
  erewrite for_loop_collect; [done|].
  intros i x st. unfold double_cut_shape.
  destruct (_ && _); by rewrite <- ?app_assoc, ?app_nil_r.
Qed.

Lemma erasure_candidate_eq (level : Z) (g : AEGraph) (i : Z) (road : list (list Z)) :
  erasure_candidate level g i road = road ++ kept_candidate level g i.
Proof.
  unfold erasure_candidate, kept_candidate, sole_content.
  destruct (Z.rem level 2 =? 0); simpl; [by rewrite app_nil_r|].
  assert (Hlen : (length (road ++ [[i]]) =? 0)%nat = false).
  { apply Nat.eqb_neq. rewrite length_app. simpl. lia. }
  destruct (level =? -1); simpl; [done|].
  destruct (num_subgraphs g =? 0) eqn:Hs0, (num_atoms g =? 1) eqn:Ha1; simpl;
    rewrite ?Hlen; simpl; rewrite ?removelast_last;
    destruct (num_subgraphs g =? 1) eqn:Hs1, (num_atoms g =? 0) eqn:Ha0; simpl;
    rewrite ?Hlen; simpl; rewrite ?removelast_last, ?app_nil_r; try done;
    apply Z.eqb_eq in Hs0, Hs1; lia.
Qed.

Lemma possible_erasures_eq (level : Z) (g : AEGraph) :
  possible_erasures level g =
  collect (fun i sg =>
    kept_candidate level g i ++ prepend i (possible_erasures (level + 1) sg))
    0 (subgraphs g)
  ++ collect (fun i _ => kept_candidate level g i) (num_subgraphs g) (atoms g).
Proof.
  destruct g as [sa ats sgs]; simpl.
  erewrite (for_loop_collect _ (fun i _ => kept_candidate level _ i));
    [|intros; apply erasure_candidate_eq].
  f_equal.
  erewrite (for_loop_collect _ (fun i sg =>
    kept_candidate level _ i ++ prepend i (possible_erasures (level + 1) sg)));
    [done|].
  intros i x st. by rewrite erasure_candidate_eq, app_assoc.
Qed.

Lemma get_paths_to_graph_eq (other g : AEGraph) :
  get_paths_to_graph other g =
  collect (fun i sg =>
    if operator_eq sg other && (1 <? size g) then [[i]]
    else prepend i (get_paths_to_graph other sg)) 0 (subgraphs g).
Proof.
  destruct g as [sa ats sgs]; simpl.
  erewrite for_loop_collect; [done|].
  intros i x st. simpl. by destruct (_ && _).
Qed.

Lemma get_paths_to_atom_eq (other : string) (g : AEGraph) :
  get_paths_to_atom other g =
  collect (fun i a =>
    if String.eqb a other && (1 <? size g) then [[i + num_subgraphs g]] else [])
    0 (atoms g)
  ++ collect (fun i sg =>
    if contains_atom other sg then prepend i (get_paths_to_atom other sg) else [])
    0 (subgraphs g).
Proof.
  destruct g as [sa ats sgs]; simpl.
  erewrite (for_loop_collect _ (fun i sg =>
    if contains_atom other sg then prepend i (get_paths_to_atom other sg) else [])).
  2: { intros i x st. destruct (contains_atom other x); by rewrite ?app_nil_r. }
  f_equal.
  erewrite (for_loop_collect _ (fun i a =>
    if String.eqb a other && (1 <? size _) then [[i + num_subgraphs _]] else []));
    [done|].
  intros i x st. simpl. destruct (_ && _); by rewrite ?app_nil_r.
Qed.

Lemma possible_deiterations_eq (g : AEGraph) :
  possible_deiterations g =
  collect (fun i sg_i =>
    collect (fun j sg_j =>
      if negb (i =? j) then prepend j (get_paths_to_graph sg_i sg_j) else [])
      0 (subgraphs g)) 0 (subgraphs g)
  ++ collect (fun i atom_i =>
    collect (fun j sg_j => prepend j (get_paths_to_atom atom_i sg_j))
      0 (subgraphs g)) 0 (atoms g).
Proof.
  unfold possible_deiterations.
  erewrite (for_loop_collect _ (fun i atom_i =>
    collect (fun j sg_j => prepend j (get_paths_to_atom atom_i sg_j))
      0 (subgraphs g))).
  2: { intros i x st. by erewrite for_loop_collect. }
  f_equal.
  erewrite for_loop_collect; [done|].
  intros i x st. simpl.
  erewrite (for_loop_collect _ (fun j sg_j =>
    if negb (i =? j) then prepend j (get_paths_to_graph x sg_j) else [])); [done|].
  intros j y st'. destruct (negb _); by rewrite ?app_nil_r.
Qed.

(** ** The appliers descend to the parent of the last index *)

Lemma capacity_cons2 (i j : Z) (a : list Z) : (capacity (i :: j :: a) =? 1) = false.
Proof. unfold capacity. apply Z.eqb_neq. cbn [length]. lia. Qed.

Lemma cons_app_last_capacity (j : Z) (path : list Z) (i : Z) :
  (capacity (j :: path ++ [i]) =? 1) = false.
Proof. destruct path; apply capacity_cons2. Qed.

Lemma double_cut_helper_app (path : list Z) (i : Z) (g : AEGraph) :
  double_cut_helper (path ++ [i]) g
  = through_path (double_cut_helper [i]) g path.
Proof.
  unfold through_path. remember (double_cut_helper [i]) as last_step eqn:Hlast.
  revert g. induction path as [|j path IH]; intros g.
  - subst last_step. cbn [app node_at]. by destruct (double_cut_helper [i] g).
  - change ((j :: path) ++ [i]) with (j :: (path ++ [i])).
    cbn [double_cut_helper node_at update_at].
    rewrite cons_app_last_capacity. cbn [negb].
    destruct (at_index (subgraphs g) j) as [sub|]; [|done].
    rewrite IH. destruct (node_at sub path) as [p|]; [|done].
    by destruct (last_step p).
Qed.

Lemma erase_helper_app (path : list Z) (i : Z) (g : AEGraph) :
  erase_helper (path ++ [i]) g = through_path (erase_helper [i]) g path.
Proof.
  unfold through_path. remember (erase_helper [i]) as last_step eqn:Hlast.
  revert g. induction path as [|j path IH]; intros g.
  - subst last_step. cbn [app node_at]. by destruct (erase_helper [i] g).
  - change ((j :: path) ++ [i]) with (j :: (path ++ [i])).
    cbn [erase_helper node_at update_at].
    rewrite cons_app_last_capacity. cbn [negb].
    destruct (at_index (subgraphs g) j) as [sub|]; [|done].
    rewrite IH. destruct (node_at sub path) as [p|]; [|done].
    by destruct (last_step p).
Qed.

(** ** One-index addresses *)

Lemma double_cut_helper_last (i : Z) (p outer inner : AEGraph) :
  at_index (subgraphs p) i = Some outer ->
  at_index (subgraphs outer) 0 = Some inner ->
  double_cut_helper [i] p = Some (splice i inner p).
Proof.
  intros Hout Hin. cbn. rewrite Hout, Hin.
  apply at_index_Some in Hout as [Hi _].
  rewrite erase_index_in_range by (rewrite length_app; lia).
  unfold splice. do 2 f_equal.
  rewrite delete_app_inside by lia. done.
Qed.

Lemma erase_helper_last (i : Z) (p : AEGraph) :
  0 <= i < size p -> erase_helper [i] p = Some (remove_element i p).
Proof.
  unfold size, num_atoms. intros Hi. cbn [erase_helper].
  change (capacity [i] =? 1) with true. cbn [negb].
  unfold remove_element, num_subgraphs in *.
  repeat case_test; try lia; rewrite erase_index_in_range by lia; done.
Qed.

(** ** Erasure and deiteration share their mechanics *)

Lemma deiterate_helper_erase_helper (a : list Z) (g : AEGraph) :
  deiterate_helper a g = erase_helper a g.
Proof.
  revert g. induction a as [|w0 rest IH]; intros g; [done|].
  cbn [deiterate_helper erase_helper].
  destruct (negb (capacity (w0 :: rest) =? 1)); [|done].
  destruct (at_index (subgraphs g) w0) as [sub|]; [|done].
  by rewrite IH.
Qed.

Lemma update_at_node (f : AEGraph -> AEGraph) (path : list Z) (g p : AEGraph) :
  node_at g path = Some p ->
  update_at (fun _ => f p) path g = update_at f path g.
Proof.
  revert g. induction path as [|j path IH]; intros g; cbn [node_at update_at].
  - by intros [= ->].
  - destruct (at_index (subgraphs g) j) as [sub|]; [|done].
    intros Hp. by rewrite IH.
Qed.

Lemma node_at_cons (g sub : AEGraph) (k : nat) (path : list Z) :
  subgraphs g !! k = Some sub ->
  node_at g (Z.of_nat k :: path) = node_at sub path.
Proof. intros Hk. cbn [node_at]. by rewrite at_index_of_nat, Hk. Qed.

(** What [double_cut] returns at an address that names a child holding at
    least one cut. *)
Lemma double_cut_splices (g p outer inner : AEGraph) (path : list Z) (i : Z) :
  node_at g path = Some p ->
  at_index (subgraphs p) i = Some outer ->
  at_index (subgraphs outer) 0 = Some inner ->
  double_cut g (path ++ [i]) = Some (update_at (splice i inner) path g).
Proof.
  intros Hp Hout Hin. unfold double_cut.
  rewrite double_cut_helper_app. unfold through_path. rewrite Hp.
  rewrite (double_cut_helper_last i p outer inner Hout Hin).
  by rewrite (update_at_node (splice i inner)).
Qed.

(** What [erase] returns at an address whose last index is inside the
    unified index space of the node it names. *)
Lemma erase_removes (g p : AEGraph) (path : list Z) (i : Z) :
  node_at g path = Some p ->
  0 <= i < size p ->
  erase g (path ++ [i]) = Some (update_at (remove_element i) path g).
Proof.
  intros Hp Hi. unfold erase.
  rewrite erase_helper_app. unfold through_path. rewrite Hp.
  rewrite (erase_helper_last i p Hi).
  by rewrite (update_at_node (remove_element i)).
Qed.

(** ** Where the enumerated addresses point *)

Lemma shape_has_inner (outer : AEGraph) :
  double_cut_shape outer = true ->
  exists inner, subgraphs outer = [inner] /\ atoms outer = [].
Proof.
  unfold double_cut_shape, num_subgraphs, num_atoms.
  intros [Hs Ha]%andb_prop. apply Z.eqb_eq in Hs, Ha.
  destruct (subgraphs outer) as [|inner [|? ?]]; simpl in Hs; try lia.
  destruct (atoms outer); simpl in Ha; try lia. eauto.
Qed.

Lemma possible_double_cuts_resolve (g : AEGraph) (a : list Z) :
  a ∈ possible_double_cuts g ->
  exists path i p outer,
    a = path ++ [i] /\ node_at g path = Some p /\
    at_index (subgraphs p) i = Some outer /\ double_cut_shape outer = true.
Proof.
  revert a. induction g as [sa ats sgs IH] using AEGraph_nested_ind. intros a.
  rewrite possible_double_cuts_eq. cbn [subgraphs].
  intros (k & sg & Hk & Ha)%elem_of_collect.
  apply elem_of_app in Ha as [Ha | Ha].
  - destruct (double_cut_shape sg) eqn:Hshape; [|by inversion Ha].
    apply list_elem_of_singleton in Ha. subst a.
    exists [], (0 + Z.of_nat k), (mkAEGraph sa ats sgs), sg.
    repeat split; try done.
    replace (0 + Z.of_nat k) with (Z.of_nat k) by lia.
    by rewrite at_index_of_nat.
  - apply elem_of_prepend in Ha as (a' & -> & Ha').
    rewrite Forall_lookup in IH.
    destruct (IH k sg Hk a' Ha') as (path & i & p & outer & -> & Hp & Hout & Hsh).
    exists ((0 + Z.of_nat k) :: path), i, p, outer.
    repeat split; try done.
    replace (0 + Z.of_nat k) with (Z.of_nat k) by lia.
    by rewrite (node_at_cons _ sg).
Qed.

Lemma get_paths_to_graph_resolve (other g : AEGraph) (a : list Z) :
  a ∈ get_paths_to_graph other g ->
  exists path i p c,
    a = path ++ [i] /\ node_at g path = Some p /\
    at_index (subgraphs p) i = Some c /\ operator_eq c other = true /\
    1 < size p.
Proof.
  revert a. induction g as [sa ats sgs IH] using AEGraph_nested_ind. intros a.
  rewrite get_paths_to_graph_eq. cbn [subgraphs].
  intros (k & sg & Hk & Ha)%elem_of_collect.
  replace (0 + Z.of_nat k) with (Z.of_nat k) in Ha by lia.
  destruct (operator_eq sg other && _) eqn:Hmatch.
  - apply list_elem_of_singleton in Ha. subst a.
    apply andb_prop in Hmatch as [Heq Hsize]. apply Z.ltb_lt in Hsize.
    exists [], (Z.of_nat k), (mkAEGraph sa ats sgs), sg.
    repeat split; try done. by rewrite at_index_of_nat.
  - apply elem_of_prepend in Ha as (a' & -> & Ha').
    rewrite Forall_lookup in IH.
    destruct (IH k sg Hk a' Ha') as (path & i & p & c & -> & Hp & Hc & Heq & Hsz).
    exists (Z.of_nat k :: path), i, p, c.
    repeat split; try done. by rewrite (node_at_cons _ sg).
Qed.

Lemma get_paths_to_atom_resolve (other : string) (g : AEGraph) (a : list Z) :
  a ∈ get_paths_to_atom other g ->
  exists path i p,
    a = path ++ [i] /\ node_at g path = Some p /\
    num_subgraphs p <= i /\
    at_index (atoms p) (i - num_subgraphs p) = Some other /\
    1 < size p.
Proof.
  revert a. induction g as [sa ats sgs IH] using AEGraph_nested_ind. intros a.
  rewrite get_paths_to_atom_eq. cbn [subgraphs atoms].
  intros [Ha | Ha]%elem_of_app.
  - apply elem_of_collect in Ha as (k & x & Hk & Ha).
    destruct (String.eqb x other && _) eqn:Hmatch; [|by inversion Ha].
    apply list_elem_of_singleton in Ha. subst a.
    apply andb_prop in Hmatch as [Heq Hsize]. apply Z.ltb_lt in Hsize.
    apply String.eqb_eq in Heq. subst x.
    exists [], (0 + Z.of_nat k + num_subgraphs (mkAEGraph sa ats sgs)),
      (mkAEGraph sa ats sgs).
    repeat split; try done; [unfold num_subgraphs; lia|].
    cbn [atoms].
    replace (0 + Z.of_nat k + _ - _) with (Z.of_nat k) by lia.
    by rewrite at_index_of_nat.
  - apply elem_of_collect in Ha as (k & sg & Hk & Ha).
    replace (0 + Z.of_nat k) with (Z.of_nat k) in Ha by lia.
    destruct (contains_atom other sg); [|by inversion Ha].
    apply elem_of_prepend in Ha as (a' & -> & Ha').
    rewrite Forall_lookup in IH.
    destruct (IH k sg Hk a' Ha') as (path & i & p & -> & Hp & Hi & Hat & Hsz).
    exists (Z.of_nat k :: path), i, p.
    repeat split; try done. by rewrite (node_at_cons _ sg).
Qed.

Lemma resolve_app (g : AEGraph) (path : list Z) (i : Z) :
  resolve g (path ++ [i]) =
  match node_at g path with
  | None => None
  | Some p => element_at p i
  end.
Proof.
  revert g. induction path as [|j path IH]; intros g; [done|].
  change ((j :: path) ++ [i]) with (j :: (path ++ [i])).
  cbn [resolve node_at].
  destruct (path ++ [i]) eqn:Happ; [by destruct path|].
  destruct (at_index (subgraphs g) j); [apply IH | done].
Qed.

Lemma kept_candidate_elem (level : Z) (g : AEGraph) (i : Z) (a : list Z) :
  a ∈ kept_candidate level g i <->
  a = [i] /\ Z.rem level 2 <> 0 /\ (level = -1 \/ sole_content g = false).
Proof.
  unfold kept_candidate.
  destruct (Z.eqb_spec (Z.rem level 2) 0) as [Hr|Hr]; simpl.
  { split; [intros H; inversion H | intros (_ & ? & _); done]. }
  destruct (Z.eqb_spec level (-1)) as [Hl|Hl]; simpl.
  { rewrite list_elem_of_singleton. intuition. }
  destruct (sole_content g); simpl.
  - split; [intros H; inversion H | intros (_ & _ & [?|?]); done].
  - rewrite list_elem_of_singleton. intuition.
Qed.

(** The addresses of [possible_erasures], exactly. *)
Lemma possible_erasures_resolve (g : AEGraph) (level : Z) (a : list Z) :
  a ∈ possible_erasures level g <->
  exists path i p,
    a = path ++ [i] /\ node_at g path = Some p /\ 0 <= i < size p /\
    Z.rem (level + Z.of_nat (length path)) 2 <> 0 /\
    (level + Z.of_nat (length path) = -1 \/ sole_content p = false).
Proof.
  split.
  - revert level a. induction g as [sa ats sgs IH] using AEGraph_nested_ind.
    intros level a. rewrite possible_erasures_eq. cbn [subgraphs atoms].
    set (g := mkAEGraph sa ats sgs).
    intros [Ha | Ha]%elem_of_app;
      apply elem_of_collect in Ha as (k & x & Hk & Ha).
    + replace (0 + Z.of_nat k) with (Z.of_nat k) in Ha by lia.
      apply lookup_lt_Some in Hk as Hlt.
      apply elem_of_app in Ha as [Ha | Ha].
      * apply kept_candidate_elem in Ha as (-> & Hodd & Hsole).
        exists [], (Z.of_nat k), g. cbn [length app].
        rewrite Z.add_0_r. repeat split; try done; try lia.
        unfold size, num_subgraphs, num_atoms, g. cbn [subgraphs atoms]. lia.
      * apply elem_of_prepend in Ha as (a' & -> & Ha').
        rewrite Forall_lookup in IH.
        destruct (IH k x Hk (level + 1) a' Ha')
          as (path & i & p & -> & Hp & Hi & Hodd & Hsole).
        exists (Z.of_nat k :: path), i, p.
        rewrite (node_at_cons g x) by done. cbn [length].
        replace (level + Z.of_nat (S (length path)))
          with (level + 1 + Z.of_nat (length path)) by lia.
        done.
    + apply lookup_lt_Some in Hk as Hlt.
      apply kept_candidate_elem in Ha as (-> & Hodd & Hsole).
      exists [], (num_subgraphs g + Z.of_nat k), g. cbn [length app].
      rewrite Z.add_0_r. repeat split; try done;
        unfold size, num_subgraphs, num_atoms, g; cbn [subgraphs atoms]; lia.
  - intros (path & i & p & -> & Hp & Hi & Hodd & Hsole).
    revert g level Hp Hodd Hsole.
    induction path as [|j path IH]; intros g level Hp Hodd Hsole.
    + cbn [node_at] in Hp. injection Hp as ->.
      cbn [length] in *. rewrite Z.add_0_r in *. cbn [app].
      rewrite possible_erasures_eq, elem_of_app, !elem_of_collect.
      unfold size, num_atoms in Hi.
      destruct (Z.ltb_spec i (num_subgraphs p)) as [Hlt|Hge].
      * left. unfold num_subgraphs in Hlt.
        destruct (lookup_lt_is_Some_2 (subgraphs p) (Z.to_nat i)) as [x Hx]; [lia|].
        exists (Z.to_nat i), x. split; [done|].
        apply elem_of_app. left. apply kept_candidate_elem.
        split; [f_equal; lia | done].
      * right.
        destruct (lookup_lt_is_Some_2 (atoms p) (Z.to_nat (i - num_subgraphs p)))
          as [x Hx]; [lia|].
        exists (Z.to_nat (i - num_subgraphs p)), x. split; [done|].
        apply kept_candidate_elem. split; [f_equal; lia | done].
    + cbn [node_at] in Hp.
      destruct (at_index (subgraphs g) j) as [sub|] eqn:Hsub; [|done].
      apply at_index_Some in Hsub as [Hj Hsub].
      change ((j :: path) ++ [i]) with (j :: (path ++ [i])).
      rewrite possible_erasures_eq, elem_of_app, elem_of_collect.
      left. exists (Z.to_nat j), sub. split; [done|].
      apply elem_of_app. right. apply elem_of_prepend.
      exists (path ++ [i]). split; [f_equal; lia|].
      cbn [length] in Hodd, Hsole.
      apply IH; try done.
      * by replace (level + 1 + Z.of_nat (length path))
          with (level + Z.of_nat (S (length path))) by lia.
      * by replace (level + 1 + Z.of_nat (length path))
          with (level + Z.of_nat (S (length path))) by lia.
Qed.

(** The addresses of [possible_deiterations]: a copy of another child of
    the root inside child [j], or an atom of the root inside a child. *)
Lemma possible_deiterations_resolve (g : AEGraph) (a : list Z) :
  a ∈ possible_deiterations g ->
  exists j sub path i p,
    a = (j :: path) ++ [i] /\ at_index (subgraphs g) j = Some sub /\
    node_at sub path = Some p /\ 1 < size p /\
    ((exists k original c,
        k <> j /\ at_index (subgraphs g) k = Some original /\
        at_index (subgraphs p) i = Some c /\ operator_eq c original = true)
     \/ (exists atom,
        In atom (atoms g) /\ num_subgraphs p <= i /\
        at_index (atoms p) (i - num_subgraphs p) = Some atom)).
Proof.
  rewrite possible_deiterations_eq.
  intros [Ha | Ha]%elem_of_app;
    apply elem_of_collect in Ha as (k & x & Hk & Ha);
    apply elem_of_collect in Ha as (j & sub & Hj & Ha);
    replace (0 + Z.of_nat k) with (Z.of_nat k) in Ha by lia;
    replace (0 + Z.of_nat j) with (Z.of_nat j) in Ha by lia.
  - destruct (Z.eqb_spec (Z.of_nat k) (Z.of_nat j)) as [Heq|Hne];
      simpl in Ha; [by inversion Ha|].
    apply elem_of_prepend in Ha as (a' & -> & Ha').
    apply get_paths_to_graph_resolve in Ha'
      as (path & i & p & c & -> & Hp & Hc & Heq & Hsz).
    exists (Z.of_nat j), sub, path, i, p.
    rewrite at_index_of_nat. repeat split; try done.
    left. exists (Z.of_nat k), x, c. rewrite at_index_of_nat. done.
  - apply elem_of_prepend in Ha as (a' & -> & Ha').
    apply get_paths_to_atom_resolve in Ha'
      as (path & i & p & -> & Hp & Hi & Hat & Hsz).
    exists (Z.of_nat j), sub, path, i, p.
    rewrite at_index_of_nat. repeat split; try done.
    right. exists x. repeat split; try done.
    apply list_elem_of_In, list_elem_of_lookup. eauto.
Qed.

(** ** The three rules, enumerator and applier paired *)

(** C1. Every address an enumerator returns on [g] is accepted by its
    paired applier on [g]: the descent and the final removal stay in range
    and a graph is returned, whatever the length of the address. *)
Theorem applier_defined_on_enumerated (r : rule) (g : AEGraph) (a : list Z) :
  In a (enumerator r g) -> exists g', applier r g a = Some g'.
Proof.
  intros Ha%list_elem_of_In. destruct r as [|level|]; cbn [enumerator applier] in *.
  - apply possible_double_cuts_resolve in Ha
      as (path & i & p & outer & -> & Hp & Hout & Hshape).
    apply shape_has_inner in Hshape as (inner & Hsgs & _).
    eexists. apply (double_cut_splices g p outer inner); try done.
    by rewrite Hsgs.
  - apply possible_erasures_resolve in Ha as (path & i & p & -> & Hp & Hi & _).
    eexists. by apply (erase_removes g p).
  - apply possible_deiterations_resolve in Ha
      as (j & sub & path & i & p & -> & Hsub & Hp & _ & Htarget).
    unfold deiterate. rewrite deiterate_helper_erase_helper.
    eexists. apply (erase_removes g p).
    + cbn [node_at]. by rewrite Hsub.
    + unfold size, num_atoms, num_subgraphs in *.
      destruct Htarget as [(k & orig & c & _ & _ & Hc & _) | (atom & _ & Hge & Hat)].
      * apply at_index_Some in Hc as [Hc _]. lia.
      * apply at_index_Some in Hat as [Hat _]. lia.
Qed.

Lemma applier_defined_on_enumerated_witness :
  (exists g', applier double_cut_rule sample_graph [2; 1] = Some g')
  /\ (exists g', applier (erasure_rule 0) sample_graph [2; 1; 0; 1] = Some g')
  /\ (exists g', applier deiteration_rule sample_graph [0; 0] = Some g').
Proof.
  repeat split; apply applier_defined_on_enumerated; vm_compute; tauto.
Defined.

(** C2. At an address that names a child of double-cut shape (no atom, one
    child [inner]), [double_cut] returns the graph in which the parent has
    lost that child and gained the atoms and children of [inner], every
    other node unchanged; and on the text [([[C]])] the only address
    enumerated is that of the single child, where the result equals the
    graph of [(C)]. *)
Theorem double_cut_removes_both_cuts :
  (forall (g p outer inner : AEGraph) (path : list Z) (i : Z),
     node_at g path = Some p ->
     at_index (subgraphs p) i = Some outer ->
     subgraphs outer = [inner] -> atoms outer = [] ->
     double_cut g (path ++ [i]) = Some (update_at (splice i inner) path g))
  /\ (exists g target result,
        AEGraph_of_string "([[C]])" = Some g /\
        possible_double_cuts g = [[0]] /\
        double_cut g [0] = Some result /\
        AEGraph_of_string "(C)" = Some target /\
        operator_eq result target = true).
Proof.
  split.
  - intros g p outer inner path i Hp Hout Hsgs _.
    apply (double_cut_splices g p outer inner); try done. by rewrite Hsgs.
  - by exists (mkAEGraph true [] [mkAEGraph false [] [mkAEGraph false ["C"] []]]),
      (mkAEGraph true ["C"] []), (mkAEGraph true ["C"] []).
Qed.

Lemma double_cut_removes_both_cuts_witness :
  double_cut sample_graph ([2] ++ [1])
  = Some (update_at
      (splice 1 (mkAEGraph false ["F"] [mkAEGraph false ["G"] []])) [2] sample_graph).
Proof.
  apply (proj1 double_cut_removes_both_cuts sample_graph
    (mkAEGraph false []
        [ mkAEGraph false [] [mkAEGraph false ["E"] []];
          mkAEGraph false [] [mkAEGraph false ["F"] [mkAEGraph false ["G"] []]] ])
    (mkAEGraph false [] [mkAEGraph false ["F"] [mkAEGraph false ["G"] []]]));
    reflexivity.
Defined.

Lemma odd_of_nat (n : nat) : Z.odd (Z.of_nat n) = Nat.odd n.
Proof.
  induction n as [|n IH]; [done|].
  by rewrite Nat2Z.inj_succ, Z.odd_succ, Nat.odd_succ, <- Z.negb_odd,
    <- Nat.negb_odd, IH.
Qed.

(** C6. The addresses of [possible_erasures] started at level 0 are exactly
    those that name an element (child or atom) of a node reached through an
    odd number of cuts, where that element is not the node's sole content;
    so none names an element of the root or of any even level, and a lone
    child or lone atom is never offered. *)
Theorem possible_erasures_odd_levels_only (g : AEGraph) (a : list Z) :
  In a (possible_erasures 0 g) <->
  exists path i p,
    a = path ++ [i] /\ node_at g path = Some p /\ 0 <= i < size p /\
    Nat.odd (length path) = true /\ sole_content p = false.
Proof.
  rewrite <- list_elem_of_In, possible_erasures_resolve.
  assert (Hodd : forall n : nat, Z.rem (0 + Z.of_nat n) 2 <> 0 <-> Nat.odd n = true).
  { intros n. rewrite Z.add_0_l, Z.rem_mod_nonneg, Zmod_odd, odd_of_nat by lia.
    by destruct (Nat.odd n). }
  split; intros (path & i & p & Ha & Hp & Hi & Hlevel & Hsole);
    exists path, i, p; repeat split; try done; try lia.
  - by apply Hodd.
  - destruct Hsole as [Hsole|Hsole]; [lia | done].
  - by apply Hodd.
  - by right.
Qed.

Lemma possible_erasures_odd_levels_only_witness :
  exists path i p,
    [2; 1; 0; 1] = path ++ [i] /\ node_at sample_graph path = Some p /\
    0 <= i < size p /\ Nat.odd (length path) = true /\ sole_content p = false.
Proof.
  apply (proj1 (possible_erasures_odd_levels_only sample_graph [2; 1; 0; 1])).
  vm_compute. tauto.
Defined.

(** ** What erasure and deiteration remove *)

Lemma node_at_update_at (f : AEGraph -> AEGraph) (path : list Z) (g p : AEGraph) :
  node_at g path = Some p -> node_at (update_at f path g) path = Some (f p).
Proof.
  revert g. induction path as [|j path IH]; intros g; cbn [node_at update_at].
  - by intros [= ->].
  - destruct (at_index (subgraphs g) j) as [sub|] eqn:Hsub; [|done].
    intros Hp. apply at_index_Some in Hsub as [Hj Hsub].
    cbn [node_at set_subgraph subgraphs].
    assert (Hnew : at_index (<[Z.to_nat j:=update_at f path sub]> (subgraphs g)) j
                   = Some (update_at f path sub)).
    { apply at_index_Some. rewrite length_insert. split; [done|].
      apply list_lookup_insert_eq. lia. }
    rewrite Hnew. by apply IH.
Qed.

Lemma erase_helper_last_defined (i : Z) (p : AEGraph) :
  (exists p', erase_helper [i] p = Some p') <-> 0 <= i < size p.
Proof.
  split; [|intros Hi; rewrite erase_helper_last by done; eauto].
  intros [p' Hp']. cbn [erase_helper] in Hp'.
  change (capacity [i] =? 1) with true in Hp'. cbn [negb] in Hp'.
  unfold size, num_atoms, num_subgraphs, erase_index in *.
  revert Hp'. repeat case_test; cbn [andb]; try done; lia.
Qed.

Lemma element_at_defined (i : Z) (p : AEGraph) :
  (exists e, element_at p i = Some e) <-> 0 <= i < size p.
Proof.
  unfold element_at, size, num_atoms, num_subgraphs. case_test.
  - split.
    + intros [e He]. destruct (at_index (subgraphs p) i) eqn:Hat; [|done].
      apply at_index_Some in Hat as [? _]. lia.
    + intros Hi. destruct (at_index_in_range (subgraphs p) i) as [c ->]; [lia|].
      cbn. eauto.
  - split.
    + intros [e He]. destruct (at_index (atoms p) _) eqn:Hat; [|done].
      apply at_index_Some in Hat as [? _]. lia.
    + intros Hi.
      destruct (at_index_in_range (atoms p) (i - Z.of_nat (length (subgraphs p))))
        as [c ->]; [lia|]. cbn. eauto.
Qed.

(** C8. Deiteration removes exactly as erasure does.  At every graph and
    every address, [deiterate] and [erase] return the same result.  At an
    address [path ++ [i]] whose path leads to the node [p] and whose last
    index is inside the unified index space of [p], both return the graph
    in which the node at [path], and no other, is rewritten: it keeps its
    flag and loses child [i] when [i] is in the child range, atom
    [i - num_subgraphs p] otherwise, and nothing else.  At an address that
    names no element, both index or erase out of range. *)
Theorem deiterate_same_as_erase (g : AEGraph) (a : list Z) :
  deiterate g a = erase g a
  /\ (forall path i p,
        a = path ++ [i] -> node_at g path = Some p -> 0 <= i < size p ->
        erase g a = Some (update_at (remove_element i) path g)
        /\ deiterate g a = Some (update_at (remove_element i) path g)
        /\ node_at (update_at (remove_element i) path g) path
           = Some (remove_element i p)
        /\ is_SA (remove_element i p) = is_SA p
        /\ (i < num_subgraphs p ->
            subgraphs (remove_element i p) = delete (Z.to_nat i) (subgraphs p)
            /\ atoms (remove_element i p) = atoms p)
        /\ (num_subgraphs p <= i ->
            subgraphs (remove_element i p) = subgraphs p
            /\ atoms (remove_element i p)
               = delete (Z.to_nat (i - num_subgraphs p)) (atoms p)))
  /\ (resolve g a = None -> erase g a = None /\ deiterate g a = None).
Proof.
  assert (Hsame : deiterate g a = erase g a)
    by apply deiterate_helper_erase_helper.
  split; [done|]. rewrite Hsame. split.
  - intros path i p -> Hp Hi.
    split; [by apply (erase_removes g p)|].
    split; [by apply (erase_removes g p)|].
    split; [by apply node_at_update_at|].
    unfold remove_element.
    destruct (Z.ltb_spec i (num_subgraphs p)) as [Hchild|Hatom];
      cbn [is_SA atoms subgraphs]; repeat split; try done; lia.
  - intros Hnone. enough (Herase : erase g a = None) by done.
    destruct a as [|i path _] using rev_ind; [done|].
    revert Hnone. unfold erase.
    rewrite erase_helper_app, resolve_app. unfold through_path.
    destruct (node_at g path) as [p|]; [|done].
    intros Hnone. destruct (erase_helper [i] p) as [p'|] eqn:Hp'; [|done].
    assert (Hi : 0 <= i < size p)
      by (apply erase_helper_last_defined; by exists p').
    apply element_at_defined in Hi as [e He]. congruence.
Qed.

Lemma deiterate_same_as_erase_witness :
  erase sample_graph [2; 1; 0; 1]
  = Some (update_at (remove_element 1) [2; 1; 0] sample_graph)
  /\ deiterate sample_graph [2; 1; 0; 1]
     = Some (update_at (remove_element 1) [2; 1; 0] sample_graph)
  /\ node_at (update_at (remove_element 1) [2; 1; 0] sample_graph) [2; 1; 0]
     = Some (mkAEGraph false [] [mkAEGraph false ["G"] []]).
Proof.
  destruct (proj1 (proj2 (deiterate_same_as_erase sample_graph [2; 1; 0; 1]))
              [2; 1; 0] 1 (mkAEGraph false ["F"] [mkAEGraph false ["G"] []])
              eq_refl eq_refl)
    as (Herase & Hdeiterate & Hnode & _).
  - vm_compute. split; congruence.
  - by rewrite Herase, Hdeiterate, Hnode.
Defined.

(** C7. Every address [possible_deiterations] returns points inside a child
    of the root: it is an index [j] of a child followed by a non-empty
    address inside that child, and what it names there is either a cut that
    compares equal to another child [k] of the root, [k <> j], or an atom
    that is also an atom of the root. *)
Theorem deiteration_target_equals_dominator (g : AEGraph) (a : list Z) :
  In a (possible_deiterations g) ->
  exists j sub rest,
    a = j :: rest /\ rest <> [] /\
    at_index (subgraphs g) j = Some sub /\
    resolve g a = resolve sub rest /\
    ((exists k original copy,
        k <> j /\ at_index (subgraphs g) k = Some original /\
        resolve sub rest = Some (inl copy) /\ operator_eq copy original = true)
     \/ (exists atom,
        In atom (atoms g) /\ resolve sub rest = Some (inr atom))).
Proof.
  intros Ha%list_elem_of_In.
  apply possible_deiterations_resolve in Ha
    as (j & sub & path & i & p & -> & Hsub & Hp & _ & Htarget).
  assert (Hin : resolve sub (path ++ [i]) = element_at p i).
  { by rewrite resolve_app, Hp. }
  assert (Hres : resolve g ((j :: path) ++ [i]) = element_at p i).
  { rewrite resolve_app. cbn [node_at]. by rewrite Hsub, Hp. }
  exists j, sub, (path ++ [i]).
  split; [done|]. split; [by destruct path|]. split; [done|].
  split; [by rewrite Hres, Hin|]. rewrite Hin.
  destruct Htarget as [(k & orig & c & Hk & Horig & Hc & Heq) | (atom & Hatom & Hge & Hat)].
  - left. exists k, orig, c. repeat split; try done.
    unfold element_at. rewrite Hc.
    apply at_index_Some in Hc as [Hc _]. unfold num_subgraphs.
    by case_test; [|lia].
  - right. exists atom. split; [done|].
    unfold element_at. rewrite Hat.
    by case_test; [lia|].
Qed.

Lemma deiteration_target_equals_dominator_witness :
  exists j sub rest,
    [0; 0] = j :: rest /\ rest <> [] /\
    at_index (subgraphs sample_graph) j = Some sub /\
    resolve sample_graph [0; 0] = resolve sub rest /\
    ((exists k original copy,
        k <> j /\ at_index (subgraphs sample_graph) k = Some original /\
        resolve sub rest = Some (inl copy) /\ operator_eq copy original = true)
     \/ (exists atom,
        In atom (atoms sample_graph) /\ resolve sub rest = Some (inr atom))).
Proof.
  apply deiteration_target_equals_dominator. vm_compute. tauto.
Defined.

(** ** Paths to a subgraph *)

Lemma get_paths_to_graph_head (t g : AEGraph) (k : nat) (a : list Z) :
  Z.of_nat k :: a ∈ get_paths_to_graph t g <->
  exists c, subgraphs g !! k = Some c /\
    (if operator_eq c t && (1 <? size g) then a = []
     else a ∈ get_paths_to_graph t c).
Proof.
  rewrite get_paths_to_graph_eq, elem_of_collect. split.
  - intros (k' & c & Hk' & Ha).
    replace (0 + Z.of_nat k') with (Z.of_nat k') in Ha by lia.
    exists c. destruct (operator_eq c t && _).
    + apply list_elem_of_singleton in Ha. injection Ha as Hk ->.
      apply Nat2Z.inj in Hk. by subst k'.
    + apply elem_of_prepend in Ha as (a' & [= Hk ->] & Ha').
      apply Nat2Z.inj in Hk. by subst k'.
  - intros (c & Hk & Ha). exists k, c. split; [done|].
    replace (0 + Z.of_nat k) with (Z.of_nat k) by lia.
    destruct (operator_eq c t && _).
    + subst a. by apply list_elem_of_singleton.
    + apply elem_of_prepend. eauto.
Qed.

Lemma get_paths_to_graph_cons (t g : AEGraph) (a : list Z) :
  a ∈ get_paths_to_graph t g -> exists (k : nat) a', a = Z.of_nat k :: a'.
Proof.
  rewrite get_paths_to_graph_eq, elem_of_collect.
  intros (k & c & _ & Ha).
  replace (0 + Z.of_nat k) with (Z.of_nat k) in Ha by lia.
  destruct (operator_eq c t && _).
  - apply list_elem_of_singleton in Ha. eauto.
  - apply elem_of_prepend in Ha as (a' & -> & _). eauto.
Qed.

Lemma get_paths_to_graph_no_nesting (t g : AEGraph) (p r : list Z) :
  p ∈ get_paths_to_graph t g -> p ++ r ∈ get_paths_to_graph t g -> r = [].
Proof.
  revert p. induction g as [sa ats sgs IH] using AEGraph_nested_ind. intros p Hp Hq.
  destruct (get_paths_to_graph_cons _ _ _ Hp) as (k & p' & ->).
  change ((Z.of_nat k :: p') ++ r) with (Z.of_nat k :: (p' ++ r)) in Hq.
  apply get_paths_to_graph_head in Hp as (c & Hk & Hp).
  apply get_paths_to_graph_head in Hq as (c' & Hk' & Hq).
  rewrite Hk in Hk'. injection Hk' as <-.
  destruct (operator_eq c t && _).
  - by apply app_eq_nil in Hq as [_ ->].
  - rewrite Forall_lookup in IH. by apply (IH k c Hk p').
Qed.

(** C10. [get_paths_to] for a subgraph [t] reports no occurrence inside
    another reported one.  A child that equals [t] in a node of size above 1
    contributes its own address and nothing below it; a child that equals
    [t] and is the whole content of its node is not reported, and the paths
    through it are those found inside it. *)
Theorem get_paths_to_graph_outermost (t g : AEGraph) :
  (forall p r : list Z,
     In p (get_paths_to_graph t g) -> In (p ++ r) (get_paths_to_graph t g) ->
     r = [])
  /\ (forall (k : nat) (c : AEGraph),
        subgraphs g !! k = Some c -> operator_eq c t = true ->
        (1 < size g ->
           forall a, In (Z.of_nat k :: a) (get_paths_to_graph t g) <-> a = [])
        /\ (size g = 1 ->
           ~ In [Z.of_nat k] (get_paths_to_graph t g) /\
           forall a, In (Z.of_nat k :: a) (get_paths_to_graph t g)
                     <-> In a (get_paths_to_graph t c))).
Proof.
  split.
  - intros p r Hp%list_elem_of_In Hq%list_elem_of_In.
    by apply (get_paths_to_graph_no_nesting t g p).
  - intros k c Hk Heq.
    assert (Hhead : forall a, In (Z.of_nat k :: a) (get_paths_to_graph t g) <->
      (if 1 <? size g then a = [] else a ∈ get_paths_to_graph t c)).
    { intros a. rewrite <- list_elem_of_In, get_paths_to_graph_head. split.
      - intros (c' & Hk' & Ha). rewrite Hk in Hk'. injection Hk' as <-.
        by rewrite Heq in Ha.
      - intros Ha. exists c. by rewrite Heq. }
    split; intros Hsize.
    + intros a. rewrite Hhead. by case_test; [|lia].
    + assert (Hin : forall a, In (Z.of_nat k :: a) (get_paths_to_graph t g)
                              <-> In a (get_paths_to_graph t c)).
      { intros a. rewrite Hhead. case_test; [lia|]. apply list_elem_of_In. }
      split; [|done].
      rewrite Hin, <- list_elem_of_In. intros Hnil.
      by destruct (get_paths_to_graph_cons _ _ _ Hnil) as (? & ? & ?).
Qed.

Lemma get_paths_to_graph_outermost_witness :
  @nil Z = []
  /\ (forall a,
        In (Z.of_nat 0 :: a)
          (get_paths_to_graph (mkAEGraph false ["G"] [])
            (mkAEGraph false ["F"] [mkAEGraph false ["G"] []]))
        <-> a = [])
  /\ (forall a,
        In (Z.of_nat 0 :: a)
          (get_paths_to_graph (mkAEGraph false ["A"] [])
            (mkAEGraph false [] [mkAEGraph false ["A"] []]))
        <-> In a (get_paths_to_graph (mkAEGraph false ["A"] [])
                   (mkAEGraph false ["A"] []))).
Proof.
  split; [|split].
  - apply (proj1 (get_paths_to_graph_outermost (mkAEGraph false ["G"] [])
      sample_graph) [2; 1; 0; 0] []); vm_compute; tauto.
  - exact (proj1 (proj2 (get_paths_to_graph_outermost (mkAEGraph false ["G"] [])
      (mkAEGraph false ["F"] [mkAEGraph false ["G"] []])) 0%nat
      (mkAEGraph false ["G"] []) eq_refl eq_refl) eq_refl).
  - exact (proj2 (proj2 (proj2 (get_paths_to_graph_outermost (mkAEGraph false ["A"] [])
      (mkAEGraph false [] [mkAEGraph false ["A"] []])) 0%nat
      (mkAEGraph false ["A"] []) eq_refl eq_refl) eq_refl)).
Defined.

(** ** Sorting *)

Section std_sort.
Context {A : Type} (lt : A -> A -> bool).
Hypothesis lt_asym : forall x y, lt x y = true -> lt y x = false.

Lemma is_sorted_cons (x : A) (l : list A) :
  is_sorted lt (x :: l) = true ->
  is_sorted lt l = true.
Proof.
  destruct l as [|y l]; [done|]. cbn [is_sorted].
  by intros [_ ?]%andb_prop.
Qed.

Lemma is_sorted_unfold (x : A) (l : list A) :
  is_sorted lt (x :: l)
  = match l with [] => true | y :: _ => negb (lt y x) end && is_sorted lt l.
Proof using Type. by destruct l. Qed.

Lemma sort_insert_sorted (x : A) (l : list A) :
  is_sorted lt l = true -> is_sorted lt (sort_insert lt x l) = true.
Proof.
  induction l as [|y l IH]; [done|]. intros Hl.
  rewrite is_sorted_unfold in Hl. apply andb_prop in Hl as [Hhead Hl].
  cbn [sort_insert]. destruct (lt y x) eqn:Hyx.
  - rewrite is_sorted_unfold, (IH Hl), andb_true_r.
    destruct l as [|z l]; cbn [sort_insert].
    + by rewrite (lt_asym _ _ Hyx).
    + destruct (lt z x); [done|]. by rewrite (lt_asym _ _ Hyx).
  - rewrite is_sorted_unfold, Hyx. cbn [negb andb].
    by rewrite is_sorted_unfold, Hhead, Hl.
Qed.

Lemma std_sort_sorted (l : list A) : is_sorted lt (std_sort lt l) = true.
Proof.
  induction l as [|x l IH]; [done|]. by apply sort_insert_sorted.
Qed.

Lemma sort_insert_elem (x y : A) (l : list A) :
  y ∈ sort_insert lt x l <-> y = x \/ y ∈ l.
Proof using Type.
  induction l as [|z l IH]; cbn [sort_insert].
  - rewrite list_elem_of_singleton, elem_of_nil. tauto.
  - destruct (lt z x); rewrite !elem_of_cons, ?IH; tauto.
Qed.

Lemma std_sort_elem (y : A) (l : list A) : y ∈ std_sort lt l <-> y ∈ l.
Proof using Type.
  induction l as [|x l IH]; [done|].
  cbn [std_sort foldr]. fold (std_sort lt l).
  by rewrite sort_insert_elem, elem_of_cons, IH.
Qed.

(** Sorting a sorted vector leaves it as it is. *)
Lemma std_sort_of_sorted (l : list A) :
  is_sorted lt l = true -> std_sort lt l = l.
Proof using Type.
  induction l as [|x l IH]; [done|]. intros Hl.
  cbn [std_sort foldr]. fold (std_sort lt l).
  rewrite IH by (by apply is_sorted_cons in Hl).
  destruct l as [|y l]; [done|]. cbn [is_sorted] in Hl.
  apply andb_prop in Hl as [Hyx _]. cbn [sort_insert].
  by destruct (lt y x).
Qed.
End std_sort.

Lemma string_ltb_asym (x y : string) : String.ltb x y = true -> String.ltb y x = false.
Proof.
  unfold String.ltb. rewrite (String.compare_antisym x y).
  by destruct (String.compare y x).
Qed.

Lemma operator_lt_asym (x y : AEGraph) : operator_lt x y = true -> operator_lt y x = false.
Proof. apply string_ltb_asym. Qed.

Lemma sort_canonical (g : AEGraph) : canonical (sort g) = true.
Proof.
  induction g as [sa ats sgs IH] using AEGraph_nested_ind. cbn [sort canonical].
  rewrite (std_sort_sorted _ string_ltb_asym), (std_sort_sorted _ operator_lt_asym).
  cbn [andb]. apply forallb_forall.
  intros c (c' & -> & Hc')%list_elem_of_In%std_sort_elem%list_elem_of_fmap.
  rewrite Forall_forall in IH. by apply IH.
Qed.

Lemma sort_of_canonical (g : AEGraph) : canonical g = true -> sort g = g.
Proof.
  induction g as [sa ats sgs IH] using AEGraph_nested_ind. cbn [sort canonical].
  intros [[Hats Hsgs]%andb_prop Hall]%andb_prop.
  rewrite forallb_forall in Hall. rewrite Forall_forall in IH.
  assert (Hmap : map sort sgs = sgs).
  { rewrite <- (map_id sgs) at 2. apply map_ext_in.
    intros c Hc. apply IH; [by apply list_elem_of_In | by apply Hall]. }
  by rewrite Hmap, !std_sort_of_sorted.
Qed.

Lemma AEGraph_fuel_canonical (fuel : nat) (s : string) (g : AEGraph) :
  AEGraph_fuel fuel s = Some g -> canonical g = true.
Proof.
  destruct fuel as [|fuel]; [done|]. cbn [AEGraph_fuel].
  destruct s as [|left_sep s']; [done|].
  destruct (last_char _) as [right_sep|]; [|done].
  destruct (_ || _); [|done].
  destruct (split_level _) as [v|]; [|done].
  destruct (add_elements _ _ _ _) as [[ats sgs]|]; [|done].
  intros [= <-]. apply (sort_canonical (mkAEGraph _ ats sgs)).
Qed.

(** C4. A graph constructed from text is canonical at every level: atoms
    sorted, children sorted by rendering, each child canonical.  (The rule
    engines do not sort what they return.) *)
Theorem constructed_graph_canonical (s : string) (g : AEGraph) :
  AEGraph_of_string s = Some g -> canonical g = true.
Proof. apply AEGraph_fuel_canonical. Qed.

Lemma constructed_graph_canonical_witness :
  canonical
    (mkAEGraph true ["c"]
       [mkAEGraph false [] [mkAEGraph false ["d"] []]; mkAEGraph false ["a"; "b"] []])
  = true.
Proof.
  apply (constructed_graph_canonical "( c, [[d ]],[b , a] )"). reflexivity.
Defined.

(** C4, as stated, fails for each of the three appliers: on a canonical
    graph and an enumerated address the result can be out of order. *)
Lemma rule_results_not_canonical :
  ~ (forall g a g', canonical g = true -> In a (possible_double_cuts g) ->
       double_cut g a = Some g' -> canonical g' = true)
  /\ ~ (forall g a g', canonical g = true -> In a (possible_erasures 0 g) ->
       erase g a = Some g' -> canonical g' = true)
  /\ ~ (forall g a g', canonical g = true -> In a (possible_deiterations g) ->
       deiterate g a = Some g' -> canonical g' = true).
Proof.
  repeat split; intros H.
  - (* (B, [[A]]) becomes (B, A) *)
    specialize (H (mkAEGraph true ["B"] [mkAEGraph false [] [mkAEGraph false ["A"] []]])
      [0] (mkAEGraph true ["B"; "A"] [])).
    vm_compute in H. by specialize (H eq_refl (or_introl eq_refl) eq_refl).
  - (* ([A, D], [B]) becomes ([D], [B]) *)
    specialize (H (mkAEGraph true [] [mkAEGraph false ["A"; "D"] []; mkAEGraph false ["B"] []])
      [0; 0]
      (mkAEGraph true [] [mkAEGraph false ["D"] []; mkAEGraph false ["B"] []])).
    vm_compute in H. by specialize (H eq_refl (or_introl eq_refl) eq_refl).
  - (* ([A, D], [B], A) becomes ([D], [B], A) *)
    specialize (H (mkAEGraph true ["A"] [mkAEGraph false ["A"; "D"] []; mkAEGraph false ["B"] []])
      [0; 0]
      (mkAEGraph true ["A"] [mkAEGraph false ["D"] []; mkAEGraph false ["B"] []])).
    vm_compute in H. by specialize (H eq_refl (or_introl eq_refl) eq_refl).
Qed.

(** C5. The constructor on [[]], on [()] and on [[[]]]: the node built from
    an empty pair of delimiters holds one atom, the empty string, so its
    size is 1. *)
Theorem empty_delimiters_hold_one_atom :
  AEGraph_of_string "[]" = Some (mkAEGraph false [""] [])
  /\ AEGraph_of_string "()" = Some (mkAEGraph true [""] [])
  /\ AEGraph_of_string "[[]]" = Some (mkAEGraph false [] [mkAEGraph false [""] []])
  /\ (size <$> AEGraph_of_string "[]") = Some 1
  /\ (size <$> AEGraph_of_string "()") = Some 1
  /\ ((fun g => size <$> at_index (subgraphs g) 0) <$> AEGraph_of_string "[[]]")
     = Some (Some 1).
Proof. repeat split; reflexivity. Qed.

(** ** Strings *)

Lemma append_cons (c : ascii) (s t : string) : String c s +:+ t = String c (s +:+ t).
Proof. reflexivity. Qed.

Lemma append_empty_r (s : string) : s +:+ "" = s.
Proof. induction s as [|c s IH]; [done|]. by rewrite append_cons, IH. Qed.

Lemma append_append (s t u : string) : (s +:+ t) +:+ u = s +:+ (t +:+ u).
Proof. induction s as [|c s IH]; [done|]. by rewrite !append_cons, IH. Qed.

Lemma length_append (s t : string) :
  String.length (s +:+ t) = (String.length s + String.length t)%nat.
Proof. induction s as [|c s IH]; [done|]. rewrite append_cons. simpl. by rewrite IH. Qed.

Lemma append_not_empty_r (s t : string) : t <> "" -> s +:+ t <> "".
Proof. destruct s; [done|]. by rewrite append_cons. Qed.

Lemma substring_whole_prefix (a b : string) :
  substring 0 (String.length a) (a +:+ b) = a.
Proof.
  induction a as [|c a IH]; [by destruct b|].
  rewrite append_cons. simpl. by rewrite IH.
Qed.

Lemma get_past_prefix (s : string) (c : ascii) (t : string) :
  String.get (String.length s) (s +:+ String c t) = Some c.
Proof. induction s as [|c' s IH]; [done|]. by rewrite append_cons. Qed.

(** A text between delimiters: what the constructor reads off it. *)
Lemma last_char_delimited (l r : ascii) (body : string) :
  last_char (String l (body +:+ String r "")) = Some r.
Proof.
  unfold last_char. rewrite <- append_cons, length_append.
  replace (String.length (String l body) + String.length (String r "") - 1)%nat
    with (String.length (String l body)) by (simpl; lia).
  apply get_past_prefix.
Qed.

Lemma substring_delimited (l r : ascii) (body : string) :
  substring 1 (String.length (String l (body +:+ String r "")) - 2)
    (String l (body +:+ String r "")) = body.
Proof.
  cbn [String.length]. rewrite length_append.
  replace (S (String.length body + String.length (String r "")) - 2)%nat
    with (String.length body) by (simpl; lia).
  cbn [substring]. apply substring_whole_prefix.
Qed.

(** ** Whitespace *)

Lemma erase_trailing_append (a b : string) :
  b <> "" -> erase_trailing b = b -> erase_trailing (a +:+ b) = a +:+ b.
Proof.
  intros Hb Hback. induction a as [|c a IH]; [done|].
  rewrite append_cons. cbn [erase_trailing]. rewrite IH.
  destruct (a +:+ b) eqn:Hab; [|done].
  by apply (append_not_empty_r a b) in Hb.
Qed.

Lemma erase_leading_fixed (s : string) :
  is_space (first_char s) = false -> erase_leading s = s.
Proof. destruct s as [|c s]; [done|]. simpl. by intros ->. Qed.

Lemma strip_tight (s : string) : tight s -> strip s = s.
Proof.
  intros (_ & Hfront & Hback). unfold strip. by rewrite erase_leading_fixed.
Qed.

Lemma tight_append (a m b : string) : tight a -> tight b -> tight (a +:+ m +:+ b).
Proof.
  intros (Ha & Hfront & _) (Hb & _ & Hback). repeat split.
  - destruct a; [done|]. by rewrite append_cons.
  - destruct a; [done|]. by rewrite append_cons.
  - rewrite <- append_append. by apply erase_trailing_append.
Qed.

Lemma tight_delimited (l r : ascii) (body : string) :
  is_space l = false -> is_space r = false ->
  tight (String l (body +:+ String r "")).
Proof.
  intros Hl Hr. repeat split; [done|done|].
  rewrite <- append_cons. apply erase_trailing_append; [done|].
  simpl. by rewrite Hr.
Qed.

Lemma strip_after_space (s : string) : strip (String " " s) = strip s.
Proof. reflexivity. Qed.

Lemma erase_leading_length (s : string) :
  (String.length (erase_leading s) <= String.length s)%nat.
Proof.
  induction s as [|c s IH]; [done|]. simpl.
  destruct (is_space c); simpl; lia.
Qed.

Lemma erase_trailing_length (s : string) :
  (String.length (erase_trailing s) <= String.length s)%nat.
Proof.
  induction s as [|c s IH]; [done|]. simpl.
  destruct (erase_trailing s); [destruct (is_space c)|]; simpl in *; lia.
Qed.

Lemma strip_length (s : string) : (String.length (strip s) <= String.length s)%nat.
Proof.
  unfold strip. pose proof (erase_trailing_length (erase_leading s)).
  pose proof (erase_leading_length s). lia.
Qed.

Lemma strip_fixed_tight (s : string) : s <> "" -> strip s = s -> tight s.
Proof.
  intros Hs Hstrip.
  assert (Hfront : is_space (first_char s) = false).
  { destruct s as [|c s]; [done|]. simpl. destruct (is_space c) eqn:Hc; [|done].
    exfalso. unfold strip in Hstrip. simpl in Hstrip. rewrite Hc in Hstrip.
    pose proof (erase_trailing_length (erase_leading s)).
    pose proof (erase_leading_length s).
    rewrite Hstrip in H. simpl in H. lia. }
  repeat split; try done.
  unfold strip in Hstrip. by rewrite erase_leading_fixed in Hstrip.
Qed.

(** ** Scanning for the first delimiter *)

Lemma split_first_loop_skip (d : Z) (pre w rest : string) :
  unsplit d w = true ->
  split_first_loop "," d pre (w +:+ rest)
  = split_first_loop "," (depth_after d w) (pre +:+ w) rest.
Proof.
  revert d pre. induction w as [|c w IH]; intros d pre Hw.
  - by rewrite append_empty_r.
  - cbn [unsplit] in Hw. apply andb_prop in Hw as [Hc Hw].
    rewrite append_cons. cbn [split_first_loop depth_after].
    apply negb_true_iff in Hc. rewrite Hc.
    fold (count_bracket d c). rewrite (IH _ _ Hw).
    by rewrite append_append.
Qed.

Lemma unsplit_append (d : Z) (a b : string) :
  unsplit d (a +:+ b) = unsplit d a && unsplit (depth_after d a) b.
Proof.
  revert d. induction a as [|c a IH]; intros d; [done|].
  rewrite append_cons. cbn [unsplit depth_after]. by rewrite IH, andb_assoc.
Qed.

Lemma depth_after_append (d : Z) (a b : string) :
  depth_after d (a +:+ b) = depth_after (depth_after d a) b.
Proof.
  revert d. induction a as [|c a IH]; intros d; [done|].
  rewrite append_cons. cbn [depth_after]. by rewrite IH.
Qed.

Lemma level_piece_append (d : Z) (a b : string) :
  level_piece d a -> level_piece d b -> level_piece d (a +:+ b).
Proof.
  intros [Ha1 Ha2] [Hb1 Hb2]. split.
  - by rewrite unsplit_append, Ha1, Ha2, Hb1.
  - by rewrite depth_after_append, Ha2, Hb2.
Qed.

Lemma level_piece_separator (d : Z) : d <> 0 -> level_piece d ", ".
Proof.
  intros Hd. split; [|done]. cbn.
  by destruct (Z.eqb_spec d 0).
Qed.

Lemma level_piece_joined (d : Z) (ps : list string) :
  d <> 0 -> Forall (level_piece d) ps -> level_piece d (String.concat ", " ps).
Proof.
  intros Hd Hps. induction Hps as [|p ps Hp Hps IH]; [done|].
  cbn [String.concat]. destruct ps as [|q ps]; [done|].
  apply level_piece_append; [done|].
  apply level_piece_append; [by apply level_piece_separator | done].
Qed.

Lemma level_piece_bracketed (d : Z) (body : string) :
  level_piece (d + 1) body -> level_piece d (String "[" (body +:+ "]")).
Proof.
  intros [Hb1 Hb2]. split.
  - cbn [unsplit]. change (count_bracket d "[") with (d + 1).
    rewrite unsplit_append, Hb1, Hb2. cbn [andb unsplit].
    by rewrite andb_true_r.
  - cbn [depth_after]. change (count_bracket d "[") with (d + 1).
    rewrite depth_after_append, Hb2. cbn [depth_after].
    change (count_bracket (d + 1) "]") with (d + 1 - 1). lia.
Qed.

(** ** Plain atoms *)

Lemma plain_text_level_piece (d : Z) (s : string) :
  plain_text s = true -> level_piece d s.
Proof.
  induction s as [|c s IH]; [done|]. cbn [plain_text].
  intros [Hc Hs]%andb_prop. destruct (IH Hs) as [IH1 IH2].
  unfold plain_char in Hc. apply negb_true_iff in Hc.
  apply orb_false_elim in Hc as [[Hcomma Hopen]%orb_false_elim Hclose].
  split; cbn [unsplit depth_after]; unfold count_bracket;
    rewrite ?Hcomma, ?Hopen, ?Hclose; done.
Qed.

Lemma plain_atom_spec (a : string) :
  plain_atom a = true -> tight a /\ plain_text a = true.
Proof.
  unfold plain_atom. intros [[Hne Hstrip]%andb_prop Htext]%andb_prop.
  split; [|done]. apply strip_fixed_tight.
  - apply negb_true_iff in Hne. by apply String.eqb_neq in Hne.
  - by apply String.eqb_eq.
Qed.

Lemma plain_atom_first_char (a : string) :
  plain_atom a = true -> (first_char a =? "[")%char = false.
Proof.
  intros [(Hne & _) Htext]%plain_atom_spec.
  destruct a as [|c a]; [done|]. cbn [plain_text first_char] in *.
  apply andb_prop in Htext as [Hc _].
  unfold plain_char in Hc. apply negb_true_iff in Hc.
  by apply orb_false_elim in Hc as [[_ ?]%orb_false_elim _].
Qed.

(** ** The rendering as joined pieces *)

Lemma concat_all_then_atoms {A} (f : A -> string) (xs : list A) (ys : list string) :
  ys <> [] ->
  concat_all (map (fun x => f x +:+ ", ") xs) +:+ String.concat ", " ys
  = String.concat ", " (map f xs ++ ys).
Proof.
  intros Hys. induction xs as [|x xs IH]; [done|].
  cbn [map concat_all foldr app String.concat]. fold (concat_all (map (fun x => f x +:+ ", ") xs)).
  destruct (map f xs ++ ys) eqn:Hrest.
  { apply app_eq_nil in Hrest as [_ ?]. done. }
  rewrite <- IH. by rewrite !append_append.
Qed.

Lemma concat_all_separated {A} (f : A -> string) (xs : list A) :
  xs <> [] ->
  concat_all (map (fun x => f x +:+ ", ") xs) = String.concat ", " (map f xs) +:+ ", ".
Proof.
  induction xs as [|x xs IH]; [done|]. intros _.
  cbn [map concat_all foldr String.concat]. fold (concat_all (map (fun x => f x +:+ ", ") xs)).
  destruct xs as [|y xs]; [by rewrite append_empty_r|].
  rewrite IH by done. cbn [map]. by rewrite !append_append.
Qed.

Lemma substring_drop_separator (s : string) :
  substring 0 (String.length (s +:+ ", ") - 2) (s +:+ ", ") = s.
Proof.
  rewrite length_append.
  replace (String.length s + String.length ", " - 2)%nat with (String.length s)
    by (simpl; lia).
  apply substring_whole_prefix.
Qed.

Lemma repr_pieces (g : AEGraph) :
  repr g
  = String (left_delimiter g)
      (String.concat ", " (pieces g) +:+ String (right_delimiter g) "").
Proof.
  destruct g as [sa ats sgs].
  unfold pieces, left_delimiter, right_delimiter. cbn [repr subgraphs atoms is_SA].
  destruct ats as [|a ats].
  - rewrite app_nil_r. destruct sgs as [|c sgs]; [by destruct sa|].
    rewrite concat_all_separated by done. rewrite substring_drop_separator.
    by destruct sa.
  - rewrite concat_all_then_atoms by done. by destruct sa.
Qed.

Lemma repr_tight (g : AEGraph) : tight (repr g).
Proof.
  rewrite repr_pieces. apply tight_delimited.
  - unfold left_delimiter. by destruct (is_SA g).
  - unfold right_delimiter. by destruct (is_SA g).
Qed.

Lemma repr_first_char (g : AEGraph) :
  is_SA g = false -> (first_char (repr g) =? "[")%char = true.
Proof. intros Hsa. rewrite repr_pieces. unfold left_delimiter. by rewrite Hsa. Qed.

Lemma repr_level_piece (g : AEGraph) (d : Z) :
  plain g = true -> is_SA g = false -> 0 <= d -> level_piece d (repr g).
Proof.
  revert d. induction g as [sa ats sgs IH] using AEGraph_nested_ind.
  intros d Hplain Hsa Hd. rewrite repr_pieces.
  unfold left_delimiter, right_delimiter, pieces. rewrite Hsa.
  cbn [subgraphs atoms is_SA plain] in *.
  apply andb_prop in Hplain as [Hats Hsgs]. rewrite forallb_forall in Hats, Hsgs.
  apply level_piece_bracketed, level_piece_joined; [lia|].
  apply Forall_app. split.
  - apply Forall_fmap, Forall_forall. intros c Hc. rewrite Forall_forall in IH.
    apply list_elem_of_In in Hc as Hin.
    destruct (andb_prop _ _ (Hsgs c Hin)) as [Hcut Hc_plain].
    apply IH; [done | done | by apply negb_true_iff | lia].
  - apply Forall_forall. intros a Ha%list_elem_of_In.
    apply plain_text_level_piece. by apply plain_atom_spec, Hats.
Qed.

(** ** Splitting a rendered level *)

Lemma split_first_last (p : string) : good_piece p -> split_first p = (p, "").
Proof.
  intros [Htight [Hscan _]]. unfold split_first.
  rewrite <- (append_empty_r p) at 1.
  rewrite split_first_loop_skip by done.
  cbn [split_first_loop]. by rewrite strip_tight.
Qed.

Lemma split_first_more (p rest : string) :
  good_piece p -> tight rest -> split_first (p +:+ ", " +:+ rest) = (p, rest).
Proof.
  intros [Htight [Hscan Hdepth]] Hrest. unfold split_first.
  rewrite split_first_loop_skip by done. rewrite Hdepth.
  change (", " +:+ rest) with (String "," (String " " rest)).
  cbn [split_first_loop]. rewrite Ascii.eqb_refl. cbn [andb Z.eqb].
  by rewrite strip_after_space, !strip_tight.
Qed.

Lemma tight_joined (ps : list string) :
  ps <> [] -> Forall tight ps -> tight (String.concat ", " ps).
Proof.
  intros Hne Hps. induction Hps as [|p ps Hp Hps IH]; [done|].
  cbn [String.concat]. destruct ps as [|q ps]; [done|].
  apply tight_append; [done | by apply IH].
Qed.

Lemma split_level_fuel_joined (ps : list string) (fuel : nat) :
  ps <> [] -> Forall good_piece ps -> (length ps <= fuel)%nat ->
  split_level_fuel fuel (String.concat ", " ps) = Some ps.
Proof.
  intros Hne Hps. revert fuel.
  induction Hps as [|p ps Hp Hps IH]; [done|]. intros fuel Hfuel.
  destruct fuel as [|fuel]; [simpl in Hfuel; lia|].
  cbn [String.concat split_level_fuel]. destruct ps as [|q ps].
  - by rewrite split_first_last.
  - assert (Hrest : tight (String.concat ", " (q :: ps))).
    { apply tight_joined; [done|]. eapply Forall_impl; [exact Hps|]. by intros ? [? _]. }
    rewrite split_first_more by done. cbn [fst snd].
    destruct Hrest as [Hrest _].
    assert (Hfuel' : (length (q :: ps) <= fuel)%nat) by (simpl in *; lia).
    specialize (IH ltac:(done) fuel Hfuel').
    destruct (String.concat ", " (q :: ps)); [done|]. by rewrite IH.
Qed.

Lemma joined_length (ps : list string) :
  Forall tight ps -> (length ps <= String.length (String.concat ", " ps))%nat.
Proof.
  intros Hps. induction Hps as [|p ps [Hp _] Hps IH]; [done|].
  cbn [String.concat]. destruct ps as [|q ps].
  - destruct p; [done|]. simpl. lia.
  - rewrite !length_append. change (String.length ", ") with 2%nat.
    cbn [length] in *. lia.
Qed.

Lemma piece_length (p : string) (ps : list string) :
  p ∈ ps -> (String.length p <= String.length (String.concat ", " ps))%nat.
Proof.
  induction ps as [|q ps IH]; [by intros ?%elem_of_nil|].
  intros Hp. cbn [String.concat]. destruct ps as [|q' ps].
  - apply list_elem_of_singleton in Hp. by subst.
  - rewrite !length_append. apply elem_of_cons in Hp as [->|Hp]; [lia|].
    specialize (IH Hp). lia.
Qed.

Lemma split_level_joined (ps : list string) :
  ps <> [] -> Forall good_piece ps -> split_level (String.concat ", " ps) = Some ps.
Proof.
  intros Hne Hps. apply split_level_fuel_joined; try done.
  assert (Htight : Forall tight ps).
  { eapply Forall_impl; [exact Hps|]. by intros ? [? _]. }
  pose proof (joined_length ps Htight). lia.
Qed.

(** ** Filing the pieces *)

Lemma add_elements_atoms (build : string -> option AEGraph) (v ats : list string)
    (sgs : list AEGraph) :
  Forall (fun a => (first_char a =? "[")%char = false) v ->
  add_elements build v ats sgs = Some (ats ++ v, sgs).
Proof.
  intros Hv. revert ats.
  induction Hv as [|a v Ha Hv IH]; intros ats; cbn [add_elements].
  - by rewrite app_nil_r.
  - rewrite Ha. cbn [negb]. rewrite IH. by rewrite <- app_assoc.
Qed.

Lemma add_elements_pieces (build : string -> option AEGraph)
    (cuts built : list AEGraph) (v ats : list string) (sgs : list AEGraph) :
  Forall2 (fun c c' =>
    (first_char (repr c) =? "[")%char = true /\ build (repr c) = Some c') cuts built ->
  Forall (fun a => (first_char a =? "[")%char = false) v ->
  add_elements build (map repr cuts ++ v) ats sgs = Some (ats ++ v, sgs ++ built).
Proof.
  intros Hcuts Hv. revert sgs.
  induction Hcuts as [|c c' cuts built [Hc Hbuild] Hcuts IH]; intros sgs.
  - rewrite app_nil_r. by apply add_elements_atoms.
  - cbn [map app add_elements]. rewrite Hc, Hbuild. cbn [negb].
    rewrite IH. by rewrite <- app_assoc.
Qed.

(** ** Nodes without content *)

Lemma pad_empty_content (sa : bool) (ats : list string) (sgs : list AEGraph) :
  map repr sgs ++ ats <> [] ->
  pad_empty (mkAEGraph sa ats sgs) = mkAEGraph sa ats (map pad_empty sgs).
Proof. by destruct ats, sgs. Qed.

Lemma repr_pad_empty (g : AEGraph) : repr (pad_empty g) = repr g.
Proof.
  induction g as [sa ats sgs IH] using AEGraph_nested_ind.
  destruct (decide (map repr sgs ++ ats = [])) as [Hnil|Hcontent].
  - apply app_eq_nil in Hnil as [Hsgs ->]. destruct sgs; [|done]. by destruct sa.
  - rewrite pad_empty_content by done. rewrite !repr_pieces.
    unfold pieces, left_delimiter, right_delimiter. cbn [subgraphs atoms is_SA].
    rewrite map_map. do 4 f_equal. apply map_ext_in.
    intros c Hc%list_elem_of_In. rewrite Forall_forall in IH. by apply IH.
Qed.

Lemma is_sorted_pad_empty (sgs : list AEGraph) :
  is_sorted operator_lt (map pad_empty sgs) = is_sorted operator_lt sgs.
Proof.
  induction sgs as [|c sgs IH]; [done|].
  cbn [map]. rewrite !is_sorted_unfold, IH. f_equal.
  destruct sgs as [|c' sgs]; [done|]. cbn [map].
  unfold operator_lt. by rewrite !repr_pad_empty.
Qed.

Lemma canonical_pad_empty (g : AEGraph) :
  canonical g = true -> canonical (pad_empty g) = true.
Proof.
  induction g as [sa ats sgs IH] using AEGraph_nested_ind.
  destruct (decide (map repr sgs ++ ats = [])) as [Hnil|Hcontent].
  - apply app_eq_nil in Hnil as [Hsgs ->]. by destruct sgs.
  - rewrite pad_empty_content by done. cbn [canonical].
    intros [[Hats Hsgs]%andb_prop Hall]%andb_prop.
    rewrite Hats, is_sorted_pad_empty, Hsgs. cbn [andb].
    rewrite forallb_forall in Hall. apply forallb_forall.
    intros c' (c & -> & Hc)%list_elem_of_In%list_elem_of_fmap.
    rewrite Forall_forall in IH. apply IH; [done|].
    by apply Hall, list_elem_of_In.
Qed.

(** ** Reading a rendering back *)

Lemma delimiters_accepted (g : AEGraph) :
  ((left_delimiter g =? "(")%char && (right_delimiter g =? ")")%char)
  || ((left_delimiter g =? "[")%char && (right_delimiter g =? "]")%char) = true.
Proof. unfold left_delimiter, right_delimiter. by destruct (is_SA g). Qed.

Lemma left_delimiter_flag (g : AEGraph) : (left_delimiter g =? "(")%char = is_SA g.
Proof. unfold left_delimiter. by destruct (is_SA g). Qed.

Lemma AEGraph_fuel_repr (g : AEGraph) (fuel : nat) :
  plain g = true -> canonical g = true ->
  (String.length (repr g) <= fuel)%nat ->
  AEGraph_fuel fuel (repr g) = Some (pad_empty g).
Proof.
  revert fuel. induction g as [sa ats sgs IH] using AEGraph_nested_ind.
  intros fuel Hplain Hcanon Hfuel.
  set (g := mkAEGraph sa ats sgs) in *.
  rewrite repr_pieces in Hfuel |- *.
  destruct fuel as [|fuel]; [simpl in Hfuel; lia|].
  cbn [AEGraph_fuel]. rewrite last_char_delimited, delimiters_accepted.
  rewrite substring_delimited, left_delimiter_flag.
  cbn [String.length] in Hfuel. rewrite length_append in Hfuel.
  change (is_SA g) with sa.
  destruct (decide (pieces g = [])) as [Hnil|Hcontent].
  - rewrite Hnil. unfold pieces, g in Hnil. cbn [subgraphs atoms] in Hnil.
    subst g. apply app_eq_nil in Hnil as [Hsgs ->].
    destruct sgs; [reflexivity | done].
  - unfold g in Hplain, Hcanon. cbn [plain] in Hplain. apply andb_prop in Hplain as [Hats Hsgs].
    rewrite forallb_forall in Hats, Hsgs. rewrite Forall_forall in IH.
    assert (Hchild : forall c, c ∈ sgs ->
      is_SA c = false /\ plain c = true /\ canonical c = true).
    { intros c Hc. apply list_elem_of_In in Hc as Hin.
      destruct (andb_prop _ _ (Hsgs c Hin)) as [Hcut Hc_plain].
      apply negb_true_iff in Hcut. repeat split; try done.
      cbn [canonical] in Hcanon. apply andb_prop in Hcanon as [_ Hall].
      rewrite forallb_forall in Hall. by apply Hall. }
    rewrite split_level_joined; [|done|].
    2: { apply Forall_app. split.
         - apply Forall_fmap, Forall_forall. intros c Hc.
           destruct (Hchild c Hc) as (Hcut & Hc_plain & _).
           split; [apply repr_tight | by apply repr_level_piece].
         - apply Forall_forall. intros a Ha%list_elem_of_In.
           destruct (plain_atom_spec a (Hats a Ha)) as [Htight Htext].
           split; [done | by apply plain_text_level_piece]. }
    unfold pieces in Hcontent |- *. unfold g in Hcontent |- *.
    cbn [subgraphs atoms] in Hcontent |- *.
    rewrite (add_elements_pieces _ sgs (map pad_empty sgs)).
    + cbn [app]. rewrite <- (pad_empty_content sa ats sgs) by done.
      by rewrite sort_of_canonical by (by apply canonical_pad_empty).
    + apply Forall2_fmap_r, Forall_Forall2_diag, Forall_forall. intros c Hc.
      destruct (Hchild c Hc) as (Hcut & Hc_plain & Hc_canon).
      split; [by apply repr_first_char|].
      apply IH; try done.
      assert (Hlen : (String.length (repr c)
                      <= String.length (String.concat ", " (pieces g)))%nat).
      { apply piece_length. unfold pieces. cbn [subgraphs atoms].
        apply elem_of_app. left. by apply list_elem_of_fmap_2. }
      lia.
    + apply Forall_forall. intros a Ha%list_elem_of_In.
      by apply plain_atom_first_char, Hats.
Qed.

Lemma AEGraph_of_string_repr (g : AEGraph) :
  plain g = true -> canonical g = true ->
  AEGraph_of_string (repr g) = Some (pad_empty g).
Proof. intros Hplain Hcanon. by apply AEGraph_fuel_repr. Qed.

(** C3. For a canonical graph whose atoms are bare identifiers (not empty,
    no comma, no square bracket, no whitespace at either end) and whose
    nested nodes are cuts, the constructor accepts the rendering and the
    graph it builds compares equal to the original. *)
Theorem render_then_construct (g : AEGraph) :
  plain g = true -> canonical g = true ->
  exists g', AEGraph_of_string (repr g) = Some g' /\ operator_eq g' g = true.
Proof.
  intros Hplain Hcanon. exists (pad_empty g).
  split; [by apply AEGraph_of_string_repr|].
  unfold operator_eq. rewrite repr_pad_empty. apply String.eqb_refl.
Qed.

Lemma render_then_construct_witness :
  exists g', AEGraph_of_string (repr sample_graph) = Some g'
             /\ operator_eq g' sample_graph = true.
Proof. apply render_then_construct; reflexivity. Defined.

(** C3, as stated, fails: the graph built from [(x[a, b], q])] is canonical,
    its rendering [(q], x[a, b])] is read back as the atoms [b]] and
    [q], x[a], and the two graphs do not compare equal. *)
Lemma render_then_construct_fails_on_brackets :
  AEGraph_of_string "(x[a, b], q])" = Some (mkAEGraph true ["q]"; "x[a, b]"] [])
  /\ ~ (forall g, canonical g = true ->
          exists g', AEGraph_of_string (repr g) = Some g' /\ operator_eq g' g = true).
Proof.
  split; [reflexivity|]. intros H.
  destruct (H (mkAEGraph true ["q]"; "x[a, b]"] []) eq_refl) as (g' & Hg' & Heq).
  vm_compute in Hg'. injection Hg' as <-. by vm_compute in Heq.
Qed.

(** ** The subscript operator *)

Lemma plain_atom_reads_as_atom (a : string) : plain_atom a = true -> reads_as_atom a.
Proof.
  intros Ha. split; [|by apply plain_atom_first_char].
  destruct (plain_atom_spec a Ha) as [Htight Htext].
  apply split_first_last. split; [done | by apply plain_text_level_piece].
Qed.

Lemma AEGraph_of_string_wrapped_atom (a : string) :
  reads_as_atom a ->
  AEGraph_of_string ("(" +:+ a +:+ ")") = Some (mkAEGraph true [a] []).
Proof.
  intros [Hsplit Hfirst]. unfold AEGraph_of_string.
  change ("(" +:+ a +:+ ")") with (String "(" (a +:+ String ")" "")).
  cbn [String.length AEGraph_fuel].
  rewrite last_char_delimited. cbn [Ascii.eqb Bool.eqb andb orb].
  pose proof (substring_delimited "(" ")" a) as Hsub.
  cbn [String.length] in Hsub. rewrite Hsub.
  unfold split_level. cbn [split_level_fuel]. rewrite Hsplit. cbn [fst snd].
  cbn [add_elements]. by rewrite Hfirst.
Qed.

(** C9. The subscript operator at a non-negative index: the child below
    the child count; past it and inside the combined range, for an atom the
    constructor reads back as itself, the sheet of assertion holding that
    one atom; out of range, the node built from [()], which holds one
    empty atom and so has size 1. *)
Theorem operator_subscript_cases (g : AEGraph) (index : Z) :
  0 <= index ->
  (index < num_subgraphs g ->
     exists c, at_index (subgraphs g) index = Some c
               /\ operator_subscript g index = Some c)
  /\ (num_subgraphs g <= index < size g ->
     exists a, at_index (atoms g) (index - num_subgraphs g) = Some a
               /\ (reads_as_atom a ->
                   operator_subscript g index = Some (mkAEGraph true [a] [])))
  /\ (size g <= index ->
     operator_subscript g index = Some (mkAEGraph true [""] [])
     /\ size (mkAEGraph true [""] []) = 1).
Proof.
  intros Hindex. unfold operator_subscript, size, num_atoms, num_subgraphs.
  repeat split.
  - intros Hlt. destruct (at_index_in_range (subgraphs g) index) as [c Hc]; [lia|].
    exists c. split; [done|]. by case_test; [|lia].
  - intros [Hge Hlt].
    destruct (at_index_in_range (atoms g) (index - Z.of_nat (length (subgraphs g))))
      as [a Ha]; [lia|].
    exists a. split; [done|]. intros Hatom.
    repeat case_test; try lia. rewrite Ha.
    by apply AEGraph_of_string_wrapped_atom.
  - repeat case_test; try lia. done.
Qed.

Lemma operator_subscript_cases_witness :
  operator_subscript sample_graph 0 = Some (mkAEGraph false ["A"; "D"] [])
  /\ operator_subscript sample_graph 3 = Some (mkAEGraph true ["A"] [])
  /\ operator_subscript sample_graph 4 = Some (mkAEGraph true [""] [])
  /\ size (mkAEGraph true [""] []) = 1.
Proof.
  pose proof (operator_subscript_cases sample_graph 0 ltac:(lia)) as (Hchild & _ & _).
  pose proof (operator_subscript_cases sample_graph 3 ltac:(lia)) as (_ & Hatom & _).
  pose proof (operator_subscript_cases sample_graph 4 ltac:(lia)) as (_ & _ & Hout).
  specialize (Hchild ltac:(reflexivity)).
  specialize (Hatom ltac:(vm_compute; split; congruence)).
  specialize (Hout ltac:(vm_compute; congruence)).
  destruct Hchild as (c & Hc & Hres0). vm_compute in Hc. injection Hc as <-.
  destruct Hatom as (a & Ha & Hres3). vm_compute in Ha. injection Ha as <-.
  specialize (Hres3 (plain_atom_reads_as_atom "A" eq_refl)).
  destruct Hout as [Hres4 Hsize]. done.
Defined.

(** ** The fuel of the wrappers is enough *)

Lemma split_first_loop_rest (d : Z) (pre rest : string) :
  (String.length (split_first_loop "," d pre rest).2 <= String.length rest - 1)%nat.
Proof.
  revert d pre. induction rest as [|c rest IH]; intros d pre; [done|].
  cbn [split_first_loop]. destruct (_ && _); cbn [snd String.length].
  - pose proof (strip_length rest). lia.
  - specialize (IH (count_bracket d c) (pre +:+ String c "")).
    unfold count_bracket in IH. lia.
Qed.

Lemma split_first_loop_piece (d : Z) (pre rest : string) :
  (String.length (split_first_loop "," d pre rest).1
   <= String.length pre + String.length rest)%nat.
Proof.
  revert d pre. induction rest as [|c rest IH]; intros d pre.
  - cbn [split_first_loop fst]. pose proof (strip_length pre). lia.
  - cbn [split_first_loop]. destruct (_ && _); cbn [fst String.length].
    + pose proof (strip_length pre). lia.
    + specialize (IH (count_bracket d c) (pre +:+ String c "")).
      unfold count_bracket in IH. rewrite length_append in IH.
      cbn [String.length] in IH. lia.
Qed.

(** [split_level] returns on every text, and no piece is longer than the
    text. *)
Lemma split_level_fuel_enough (fuel : nat) (s : string) :
  (String.length s < fuel)%nat ->
  exists v, split_level_fuel fuel s = Some v
            /\ Forall (fun p => (String.length p <= String.length s)%nat) v.
Proof.
  revert s. induction fuel as [|fuel IH]; intros s Hfuel; [lia|].
  cbn [split_level_fuel].
  pose proof (split_first_loop_rest 0 "" s) as Hrest.
  pose proof (split_first_loop_piece 0 "" s) as Hpiece.
  fold (split_first s) in Hrest, Hpiece. cbn [String.length] in Hpiece.
  destruct (split_first s).2 as [|c r] eqn:Hsnd.
  - eexists. split; [done|]. constructor; [cbn beta; lia | constructor].
  - cbn [String.length] in Hrest.
    destruct (IH (String c r)) as (v & Hv & Hlen); [cbn [String.length]; lia|].
    rewrite Hv. eexists. split; [done|].
    constructor; [cbn beta; lia|]. eapply Forall_impl; [exact Hlen|].
    intros p Hp. cbn beta in Hp. cbn [String.length] in Hp. lia.
Qed.

Lemma split_level_total (s : string) :
  exists v, split_level s = Some v
            /\ Forall (fun p => (String.length p <= String.length s)%nat) v.
Proof. apply split_level_fuel_enough. lia. Qed.

Lemma add_elements_ext (build1 build2 : string -> option AEGraph)
    (v ats : list string) (sgs : list AEGraph) :
  Forall (fun p => build1 p = build2 p) v ->
  add_elements build1 v ats sgs = add_elements build2 v ats sgs.
Proof.
  intros Hv. revert ats sgs.
  induction Hv as [|p v Hp Hv IH]; intros ats sgs; [done|].
  cbn [add_elements]. destruct (negb _); [apply IH|].
  rewrite Hp. destruct (build2 p); [apply IH | done].
Qed.

Lemma substring_length (n m : nat) (s : string) :
  (String.length (substring n m s) <= m)%nat.
Proof.
  revert n m. induction s as [|c s IH]; intros [|n] [|m]; cbn; try lia.
  - specialize (IH 0%nat m). lia.
  - apply IH.
  - apply IH.
Qed.

Lemma last_char_length (s : string) (c : ascii) :
  last_char s = Some c -> (1 <= String.length s)%nat.
Proof. destruct s; [done | simpl; lia]. Qed.

(** Any fuel from the length of the text on gives the same result. *)
Lemma AEGraph_fuel_enough (fuel1 fuel2 : nat) (s : string) :
  (String.length s <= fuel1)%nat -> (String.length s <= fuel2)%nat ->
  AEGraph_fuel fuel1 s = AEGraph_fuel fuel2 s.
Proof.
  revert fuel2 s. induction fuel1 as [|fuel1 IH]; intros fuel2 s H1 H2.
  { destruct s; [|simpl in H1; lia]. by destruct fuel2. }
  destruct fuel2 as [|fuel2].
  { destruct s; [done | simpl in H2; lia]. }
  cbn [AEGraph_fuel]. destruct s as [|left_sep s']; [done|].
  destruct (last_char (String left_sep s')) as [right_sep|] eqn:Hlast; [|done].
  destruct (_ || _) eqn:Hcheck; [|done].
  set (inner := substring 1 (String.length (String left_sep s') - 2) (String left_sep s')).
  destruct (split_level_total inner) as (v & -> & Hv).
  rewrite (add_elements_ext (AEGraph_fuel fuel1) (AEGraph_fuel fuel2)); [done|].
  eapply Forall_impl; [exact Hv|]. intros p Hp. cbn beta in Hp.
  pose proof (substring_length 1 (String.length (String left_sep s') - 2)
    (String left_sep s')) as Hinner. fold inner in Hinner.
  assert (Htwo : (2 <= String.length (String left_sep s'))%nat).
  { destruct s' as [|c s']; [|simpl; lia].
    cbn in Hlast. injection Hlast as <-.
    by destruct (Ascii.eqb_spec left_sep "("), (Ascii.eqb_spec left_sep ")"),
      (Ascii.eqb_spec left_sep "["), (Ascii.eqb_spec left_sep "]"); subst. }
  apply IH; lia.
Qed.

(** ** The atoms of a constructed graph *)

Lemma every_atom_inv (P : string -> Prop) (g : AEGraph) :
  every_atom P g -> Forall P (atoms g) /\ Forall (every_atom P) (subgraphs g).
Proof. by intros [sa ats sgs Hats Hsgs]. Qed.

Lemma space_is_plain (c : ascii) : is_space c = true -> plain_char c = true.
Proof.
  unfold is_space, plain_char.
  destruct (Ascii.eqb_spec c " ") as [->|_]; [done|].
  destruct (Ascii.eqb_spec c "010") as [->|_]; [done|].
  destruct (Ascii.eqb_spec c "013") as [->|_]; [done|].
  destruct (Ascii.eqb_spec c "009") as [->|_]; [done|]. done.
Qed.

Lemma unsplit_plain_char (d : Z) (c : ascii) (s : string) :
  plain_char c = true -> unsplit d (String c s) = unsplit d s.
Proof.
  intros Hc. unfold plain_char in Hc. apply negb_true_iff in Hc.
  apply orb_false_elim in Hc as [[Hcomma Hopen]%orb_false_elim Hclose].
  cbn [unsplit]. unfold count_bracket. by rewrite Hcomma, Hopen, Hclose.
Qed.

Lemma unsplit_erase_leading (d : Z) (s : string) :
  unsplit d s = true -> unsplit d (erase_leading s) = true.
Proof.
  induction s as [|c s IH]; [done|]. cbn [erase_leading].
  destruct (is_space c) eqn:Hc; [|done].
  rewrite unsplit_plain_char by (by apply space_is_plain). apply IH.
Qed.

Lemma unsplit_erase_trailing (d : Z) (s : string) :
  unsplit d s = true -> unsplit d (erase_trailing s) = true.
Proof.
  revert d. induction s as [|c s IH]; intros d; [done|].
  cbn [unsplit erase_trailing]. intros [Hc Hs]%andb_prop.
  specialize (IH _ Hs). destruct (erase_trailing s) as [|c' s'].
  - destruct (is_space c); [done|]. cbn [unsplit]. by rewrite Hc.
  - cbn [unsplit] in IH |- *. by rewrite Hc, IH.
Qed.

Lemma erase_trailing_idem (s : string) :
  erase_trailing (erase_trailing s) = erase_trailing s.
Proof.
  induction s as [|c s IH]; [done|]. cbn [erase_trailing].
  destruct (erase_trailing s) as [|c' s'] eqn:Hs.
  - destruct (is_space c) eqn:Hc; [done|]. cbn [erase_trailing]. by rewrite Hc.
  - cbn [erase_trailing] in IH |- *.
    destruct (erase_trailing s') as [|c'' s''].
    + destruct (is_space c'); [done|]. by injection IH as ->.
    + by rewrite IH.
Qed.

Lemma erase_trailing_first_char (s : string) :
  erase_trailing s <> "" -> first_char (erase_trailing s) = first_char s.
Proof.
  destruct s as [|c s]; [done|]. cbn [erase_trailing].
  destruct (erase_trailing s); [by destruct (is_space c)|done].
Qed.

Lemma erase_leading_first_char (s : string) :
  is_space (first_char (erase_leading s)) = false.
Proof.
  induction s as [|c s IH]; [done|]. cbn [erase_leading].
  by destruct (is_space c) eqn:Hc.
Qed.

Lemma strip_strip (s : string) : strip (strip s) = strip s.
Proof.
  destruct (String.eqb_spec (strip s) "") as [->|Hne]; [done|].
  apply strip_tight. repeat split; [done| |apply erase_trailing_idem].
  unfold strip in *. rewrite erase_trailing_first_char by done.
  apply erase_leading_first_char.
Qed.

Lemma split_first_loop_piece_shape (d : Z) (pre rest : string) :
  exists w, (split_first_loop "," d pre rest).1 = strip (pre +:+ w)
            /\ unsplit d w = true.
Proof.
  revert d pre. induction rest as [|c rest IH]; intros d pre.
  - exists "". by rewrite append_empty_r.
  - cbn [split_first_loop]. destruct (_ && _) eqn:Hsplit.
    + exists "". by rewrite append_empty_r.
    + destruct (IH (count_bracket d c) (pre +:+ String c "")) as (w & Hw & Hscan).
      exists (String c w). unfold count_bracket in Hw. rewrite Hw.
      rewrite append_append. split; [done|].
      cbn [unsplit]. by rewrite Hsplit, Hscan.
Qed.

Lemma split_first_piece_reads (s : string) :
  split_first (split_first s).1 = ((split_first s).1, "").
Proof.
  destruct (split_first_loop_piece_shape 0 "" s) as (w & Hw & Hscan).
  fold (split_first s) in Hw. rewrite Hw.
  change ("" +:+ w) with w. unfold split_first at 1.
  rewrite <- (append_empty_r (strip w)) at 1.
  rewrite split_first_loop_skip.
  - cbn [split_first_loop]. change ("" +:+ strip w) with (strip w).
    by rewrite strip_strip.
  - by apply unsplit_erase_trailing, unsplit_erase_leading.
Qed.

Lemma split_level_fuel_pieces_read (fuel : nat) (s : string) (v : list string) :
  split_level_fuel fuel s = Some v ->
  Forall (fun p => split_first p = (p, "")) v.
Proof.
  revert s v. induction fuel as [|fuel IH]; intros s v; [done|].
  cbn [split_level_fuel]. destruct (split_first s).2 as [|c r].
  - intros [= <-]. constructor; [apply split_first_piece_reads | constructor].
  - destruct (split_level_fuel fuel (String c r)) as [v'|] eqn:Hv'; [|done].
    intros [= <-]. constructor; [apply split_first_piece_reads | by eapply IH].
Qed.

Lemma add_elements_every_atom (build : string -> option AEGraph)
    (v ats ats' : list string) (sgs sgs' : list AEGraph) :
  (forall p c, build p = Some c -> every_atom reads_as_atom c) ->
  Forall (fun p => split_first p = (p, "")) v ->
  Forall reads_as_atom ats -> Forall (every_atom reads_as_atom) sgs ->
  add_elements build v ats sgs = Some (ats', sgs') ->
  Forall reads_as_atom ats' /\ Forall (every_atom reads_as_atom) sgs'.
Proof.
  intros Hbuild Hv. revert ats sgs.
  induction Hv as [|p v Hp Hv IH]; intros ats sgs Hats Hsgs; cbn [add_elements].
  - by intros [= <- <-].
  - destruct (first_char p =? "[")%char eqn:Hfirst; cbn [negb].
    + destruct (build p) as [c|] eqn:Hc; [|done].
      apply IH; [done|]. apply Forall_app. split; [done|].
      constructor; [by eapply Hbuild | constructor].
    + apply IH; [|done]. apply Forall_app. split; [done|].
      constructor; [done | constructor].
Qed.

Lemma sort_every_atom (P : string -> Prop) (g : AEGraph) :
  every_atom P g -> every_atom P (sort g).
Proof.
  induction g as [sa ats sgs IH] using AEGraph_nested_ind.
  intros [Hats Hsgs]%every_atom_inv. cbn [atoms subgraphs] in *. cbn [sort].
  rewrite Forall_forall in IH. rewrite Forall_forall in Hats.
  rewrite Forall_forall in Hsgs.
  constructor; apply Forall_forall.
  - intros a Ha%std_sort_elem. by apply Hats.
  - intros c' (c & -> & Hc)%std_sort_elem%list_elem_of_fmap.
    apply IH; [done | by apply Hsgs].
Qed.

Lemma AEGraph_fuel_every_atom (fuel : nat) (s : string) (g : AEGraph) :
  AEGraph_fuel fuel s = Some g -> every_atom reads_as_atom g.
Proof.
  revert s g. induction fuel as [|fuel IH]; intros s g; [done|].
  cbn [AEGraph_fuel]. destruct s as [|left_sep s']; [done|].
  destruct (last_char _) as [right_sep|]; [|done].
  destruct (_ || _); [|done].
  destruct (split_level _) as [v|] eqn:Hv; [|done].
  destruct (add_elements _ _ _ _) as [[ats sgs]|] eqn:Hadd; [|done].
  intros [= <-]. apply (sort_every_atom _ (mkAEGraph _ ats sgs)).
  apply split_level_fuel_pieces_read in Hv.
  destruct (add_elements_every_atom _ _ _ _ _ _ IH Hv
    (List.Forall_nil _) (List.Forall_nil _) Hadd).
  by constructor.
Qed.

(** On a graph whose atoms the constructor reads back, the subscript
    operator returns at every non-negative index. *)
Lemma operator_subscript_total (g : AEGraph) (index : Z) :
  every_atom reads_as_atom g -> 0 <= index ->
  exists r, operator_subscript g index = Some r.
Proof.
  intros [Hats _]%every_atom_inv Hindex.
  unfold operator_subscript, num_atoms, num_subgraphs.
  destruct (Z.ltb_spec index (Z.of_nat (length (subgraphs g)))) as [Hlt|Hge].
  { by apply at_index_in_range. }
  destruct (Z.ltb_spec index
    (Z.of_nat (length (subgraphs g)) + Z.of_nat (length (atoms g)))) as [Hlt|Hge'].
  - destruct (at_index_in_range (atoms g) (index - Z.of_nat (length (subgraphs g))))
      as [a Ha]; [lia|].
    rewrite Ha. apply at_index_Some in Ha as [_ Ha].
    rewrite Forall_lookup in Hats.
    rewrite AEGraph_of_string_wrapped_atom by (by eapply Hats). eauto.
  - by eexists.
Qed.

Lemma every_atom_child (P : string -> Prop) (g sub : AEGraph) (i : Z) :
  every_atom P g -> at_index (subgraphs g) i = Some sub -> every_atom P sub.
Proof.
  intros [_ Hsgs]%every_atom_inv [_ Hsub]%at_index_Some.
  rewrite Forall_lookup in Hsgs. by eapply Hsgs.
Qed.

Lemma set_subgraph_every_atom (P : string -> Prop) (g sub : AEGraph) (i : Z) :
  every_atom P g -> every_atom P sub -> every_atom P (set_subgraph g i sub).
Proof.
  intros [Hats Hsgs]%every_atom_inv Hsub. constructor; [done|].
  by apply Forall_insert.
Qed.

Lemma erase_index_Forall {A} (P : A -> Prop) (v v' : list A) (i : Z) :
  Forall P v -> erase_index v i = Some v' -> Forall P v'.
Proof.
  unfold erase_index. destruct (_ && _); [|done].
  intros Hv [= <-]. by apply Forall_delete.
Qed.

Lemma erase_helper_every_atom (P : string -> Prop) (a : list Z) (g g' : AEGraph) :
  every_atom P g -> erase_helper a g = Some g' -> every_atom P g'.
Proof.
  revert g g'. induction a as [|w0 rest IH]; intros g g' Hg; [done|].
  cbn [erase_helper]. destruct (negb (capacity (w0 :: rest) =? 1)).
  - destruct (at_index (subgraphs g) w0) as [sub|] eqn:Hsub; [|done].
    destruct (erase_helper rest sub) as [sub'|] eqn:Hsub'; [|done].
    intros [= <-]. apply set_subgraph_every_atom; [done|].
    eapply IH; [|done]. by eapply every_atom_child.
  - destruct (every_atom_inv _ _ Hg) as [Hats Hsgs].
    destruct (num_subgraphs g - w0 <=? 0); [|destruct (0 <? num_subgraphs g - w0)].
    + destruct (erase_index (atoms g) _) as [ats|] eqn:Hats'; [|done].
      intros [= <-]. constructor; [by eapply erase_index_Forall | done].
    + destruct (erase_index (subgraphs g) _) as [sgs|] eqn:Hsgs'; [|done].
      intros [= <-]. constructor; [done | by eapply erase_index_Forall].
    + by intros [= <-].
Qed.

Lemma double_cut_helper_every_atom (P : string -> Prop) (a : list Z) (g g' : AEGraph) :
  every_atom P g -> double_cut_helper a g = Some g' -> every_atom P g'.
Proof.
  revert g g'. induction a as [|w0 rest IH]; intros g g' Hg; [done|].
  cbn [double_cut_helper]. destruct (negb (capacity (w0 :: rest) =? 1)).
  - destruct (at_index (subgraphs g) w0) as [sub|] eqn:Hsub; [|done].
    destruct (double_cut_helper rest sub) as [sub'|] eqn:Hsub'; [|done].
    intros [= <-]. apply set_subgraph_every_atom; [done|].
    eapply IH; [|done]. by eapply every_atom_child.
  - destruct (at_index (subgraphs g) w0) as [outer|] eqn:Hout; [|done].
    destruct (at_index (subgraphs outer) 0) as [aux|] eqn:Haux; [|done].
    destruct (erase_index _ w0) as [sgs|] eqn:Hsgs'; [|done].
    intros [= <-].
    assert (Hinner : every_atom P aux).
    { eapply every_atom_child; [|done]. by eapply every_atom_child. }
    destruct (every_atom_inv _ _ Hg) as [Hats Hsgs].
    destruct (every_atom_inv _ _ Hinner) as [Hats_in Hsgs_in].
    constructor; [by apply Forall_app|].
    eapply erase_index_Forall; [|done]. by apply Forall_app.
Qed.

(** What holds of every atom of a graph holds of every atom of the graph a
    rule returns: the appliers only move and delete. *)
Lemma applier_every_atom (P : string -> Prop) (r : rule) (g g' : AEGraph) (a : list Z) :
  every_atom P g -> applier r g a = Some g' -> every_atom P g'.
Proof.
  intros Hg. destruct r; cbn [applier].
  - by apply double_cut_helper_every_atom.
  - by apply erase_helper_every_atom.
  - unfold deiterate. rewrite deiterate_helper_erase_helper.
    by apply erase_helper_every_atom.
Qed.

(** ** No constructed node is empty *)

Lemma split_level_fuel_not_nil (fuel : nat) (s : string) (v : list string) :
  split_level_fuel fuel s = Some v -> v <> [].
Proof.
  destruct fuel as [|fuel]; [done|]. cbn [split_level_fuel].
  destruct (split_first s).2; [by intros [= <-]|].
  destruct (split_level_fuel fuel _); [by intros [= <-] | done].
Qed.

Lemma add_elements_length (build : string -> option AEGraph)
    (v ats ats' : list string) (sgs sgs' : list AEGraph) :
  add_elements build v ats sgs = Some (ats', sgs') ->
  (length ats' + length sgs' = length ats + length sgs + length v)%nat.
Proof.
  revert ats sgs. induction v as [|p v IH]; intros ats sgs; cbn [add_elements].
  - intros [= <- <-]. simpl. lia.
  - destruct (negb _).
    + intros Hadd%IH. rewrite length_app in Hadd. simpl in *. lia.
    + destruct (build p); [|done].
      intros Hadd%IH. rewrite length_app in Hadd. simpl in *. lia.
Qed.

Lemma add_elements_built (build : string -> option AEGraph)
    (v ats ats' : list string) (sgs sgs' : list AEGraph) (c : AEGraph) :
  add_elements build v ats sgs = Some (ats', sgs') -> c ∈ sgs' ->
  c ∈ sgs \/ exists p, build p = Some c.
Proof.
  revert ats sgs. induction v as [|p v IH]; intros ats sgs; cbn [add_elements].
  - intros [= <- <-]. by left.
  - destruct (negb _); [apply IH|].
    destruct (build p) as [sg|] eqn:Hsg; [|done].
    intros Hadd Hc.
    destruct (IH _ _ Hadd Hc) as [[Hin | ->%list_elem_of_singleton]%elem_of_app | Hp];
      eauto.
Qed.

Lemma sort_insert_length {A} (lt : A -> A -> bool) (x : A) (l : list A) :
  length (sort_insert lt x l) = S (length l).
Proof.
  induction l as [|y l IH]; [done|]. cbn [sort_insert].
  destruct (lt y x); simpl; by rewrite ?IH.
Qed.

Lemma std_sort_length {A} (lt : A -> A -> bool) (l : list A) :
  length (std_sort lt l) = length l.
Proof.
  induction l as [|x l IH]; [done|].
  cbn [std_sort foldr]. fold (std_sort lt l). by rewrite sort_insert_length, IH.
Qed.

(** Whatever the text, the node the constructor builds holds at least one
    element, and so does every node below it. *)
Lemma constructed_node_has_content (fuel : nat) (s : string) (g : AEGraph) :
  AEGraph_fuel fuel s = Some g -> has_content g = true.
Proof.
  revert s g. induction fuel as [|fuel IH]; intros s g; [done|].
  cbn [AEGraph_fuel]. destruct s as [|left_sep s']; [done|].
  destruct (last_char _) as [right_sep|]; [|done].
  destruct (_ || _); [|done].
  destruct (split_level _) as [v|] eqn:Hv; [|done].
  destruct (add_elements _ _ _ _) as [[ats sgs]|] eqn:Hadd; [|done].
  intros [= <-]. cbn [sort has_content].
  apply split_level_fuel_not_nil in Hv. apply add_elements_length in Hadd as Hlen.
  rewrite !std_sort_length, length_map. apply andb_true_intro. split.
  - apply negb_true_iff, Nat.eqb_neq. destruct v; [done|]. simpl in Hlen. lia.
  - apply forallb_forall.
    intros c' (c & -> & Hc)%list_elem_of_In%std_sort_elem%list_elem_of_fmap.
    destruct (add_elements_built _ _ _ _ _ _ c Hadd Hc)
      as [Hnil%elem_of_nil | (p & Hp)]; [done|].
    assert (Hsorted : sort c = c).
    { apply sort_of_canonical. by eapply AEGraph_fuel_canonical. }
    rewrite Hsorted. by eapply IH.
Qed.

Lemma pad_empty_has_content (g : AEGraph) : has_content g = true -> pad_empty g = g.
Proof.
  induction g as [sa ats sgs IH] using AEGraph_nested_ind. cbn [has_content].
  intros [Hne Hall]%andb_prop. apply negb_true_iff, Nat.eqb_neq in Hne.
  rewrite pad_empty_content by (destruct sgs, ats; simpl in *; done || lia).
  f_equal. rewrite <- (map_id sgs) at 2. apply map_ext_in.
  rewrite forallb_forall in Hall. rewrite Forall_forall in IH.
  intros c Hc. apply IH; [by apply list_elem_of_In | by apply Hall].
Qed.

(** On a graph without empty node the constructor returns the very graph
    that was rendered. *)
Lemma AEGraph_of_string_repr_exact (g : AEGraph) :
  plain g = true -> canonical g = true -> has_content g = true ->
  AEGraph_of_string (repr g) = Some g.
Proof.
  intros Hplain Hcanon Hcontent.
  rewrite AEGraph_of_string_repr by done. by rewrite pad_empty_has_content.
Qed.

(** * Further properties of the code *)

(** ** [strip] *)

Lemma erase_leading_removed (s : string) :
  exists l, s = l +:+ erase_leading s /\ all_space l = true.
Proof.
  induction s as [|c s (l & Hl & Hspace)]; [by exists ""|].
  cbn [erase_leading]. destruct (is_space c) eqn:Hc.
  - exists (String c l). rewrite append_cons, <- Hl. cbn [all_space].
    by rewrite Hc, Hspace.
  - by exists "".
Qed.

Lemma erase_trailing_removed (s : string) :
  exists r, s = erase_trailing s +:+ r /\ all_space r = true.
Proof.
  induction s as [|c s (r & Hr & Hspace)]; [by exists ""|].
  cbn [erase_trailing]. destruct (erase_trailing s) as [|c' s'] eqn:Hs.
  - change ("" +:+ r) with r in Hr. subst s.
    destruct (is_space c) eqn:Hc.
    + exists (String c r). cbn [all_space]. by rewrite Hc, Hspace.
    + by exists r.
  - exists r. by rewrite append_cons, <- Hr.
Qed.

Lemma last_char_cons (c c' : ascii) (s : string) :
  last_char (String c (String c' s)) = last_char (String c' s).
Proof.
  unfold last_char. cbn [String.length].
  replace (S (S (String.length s)) - 1)%nat with (S (String.length s)) by lia.
  replace (S (String.length s) - 1)%nat with (String.length s) by lia.
  done.
Qed.

Lemma erase_trailing_last_char (s : string) (c : ascii) :
  erase_trailing s = s -> last_char s = Some c -> is_space c = false.
Proof.
  induction s as [|c0 s IH]; [done|]. destruct s as [|c1 s].
  - cbn. destruct (is_space c0) eqn:Hc0; [done|]. by intros _ [= <-].
  - rewrite last_char_cons. cbn [erase_trailing] in *.
    destruct (match erase_trailing s with
              | "" => if is_space c1 then "" else String c1 ""
              | String a s0 => String c1 (String a s0)
              end) as [|c2 s2] eqn:Hrest.
    + by destruct (is_space c0).
    + intros [= Hc2 Hs2]. subst c2 s2. by apply IH.
Qed.

(** X1. [strip] removes whitespace and nothing else, from both ends: the
    text is the result between two runs of whitespace, the result neither
    starts nor ends with a whitespace character, and stripping again
    changes nothing. *)
Theorem strip_removes_outer_whitespace (s : string) :
  (exists l r, s = l +:+ strip s +:+ r /\ all_space l = true /\ all_space r = true)
  /\ is_space (first_char (strip s)) = false
  /\ (forall c, last_char (strip s) = Some c -> is_space c = false)
  /\ strip (strip s) = strip s.
Proof.
  repeat split.
  - destruct (erase_leading_removed s) as (l & Hl & Hlspace).
    destruct (erase_trailing_removed (erase_leading s)) as (r & Hr & Hrspace).
    exists l, r. unfold strip. by rewrite <- Hr, <- Hl.
  - unfold strip. destruct (String.eqb_spec (erase_trailing (erase_leading s)) "")
      as [->|Hne]; [done|].
    rewrite erase_trailing_first_char by done. apply erase_leading_first_char.
  - intros c. apply erase_trailing_last_char. apply erase_trailing_idem.
  - apply strip_strip.
Qed.

(** ** [split_first] and [split_level] *)

Lemma split_first_piece_stripped (s : string) :
  strip (split_first s).1 = (split_first s).1.
Proof.
  destruct (split_first_loop_piece_shape 0 "" s) as (w & Hw & _).
  fold (split_first s) in Hw. rewrite Hw. apply strip_strip.
Qed.

Lemma split_level_fuel_pieces_stripped (fuel : nat) (s : string) (v : list string) :
  split_level_fuel fuel s = Some v -> Forall (fun p => strip p = p) v.
Proof.
  revert s v. induction fuel as [|fuel IH]; intros s v; [done|].
  cbn [split_level_fuel]. destruct (split_first s).2 as [|c r].
  - intros [= <-]. constructor; [apply split_first_piece_stripped | constructor].
  - destruct (split_level_fuel fuel (String c r)) as [v'|] eqn:Hv'; [|done].
    intros [= <-]. constructor; [apply split_first_piece_stripped | by eapply IH].
Qed.

(** X2. [split_level] returns on every text.  It returns at least one
    piece, and every piece is no longer than the text, carries no
    whitespace at its ends, and holds no comma outside brackets: split
    again, it comes back whole. *)
Theorem split_level_returns_stripped_pieces (s : string) :
  exists v, split_level s = Some v /\ v <> [] /\
    Forall (fun p =>
      (String.length p <= String.length s)%nat /\ strip p = p /\
      split_first p = (p, "")) v.
Proof.
  destruct (split_level_total s) as (v & Hv & Hlen).
  exists v. split; [done|]. split; [by eapply split_level_fuel_not_nil|].
  pose proof (split_level_fuel_pieces_stripped _ _ _ Hv) as Hstrip.
  pose proof (split_level_fuel_pieces_read _ _ _ Hv) as Hread.
  rewrite Forall_forall in Hlen. rewrite Forall_forall in Hstrip.
  rewrite Forall_forall in Hread. apply Forall_forall. intros p Hp.
  repeat split; [by apply Hlen | by apply Hstrip | by apply Hread].
Qed.

(** X3. [split_first] cuts at the first comma met with the bracket counter
    at zero, and strips both parts; a text without such a comma comes back
    whole, stripped, with an empty rest. *)
Theorem split_first_cuts_at_top_level_comma (w rest : string) :
  unsplit 0 w = true ->
  split_first w = (strip w, "")
  /\ (depth_after 0 w = 0 ->
      split_first (w +:+ String "," rest) = (strip w, strip rest)).
Proof.
  intros Hw. unfold split_first. split.
  - rewrite <- (append_empty_r w) at 1. by rewrite split_first_loop_skip.
  - intros Hdepth. rewrite split_first_loop_skip by done. rewrite Hdepth.
    cbn [split_first_loop]. by rewrite Ascii.eqb_refl.
Qed.

Lemma split_first_cuts_at_top_level_comma_witness :
  split_first "a[b, c] " = ("a[b, c]", "")
  /\ split_first ("a[b, c] " +:+ String "," " [d, e], f") = ("a[b, c]", "[d, e], f").
Proof.
  destruct (split_first_cuts_at_top_level_comma "a[b, c] " " [d, e], f" eq_refl)
    as [Hwhole Hcut].
  split; [exact Hwhole | exact (Hcut eq_refl)].
Defined.

(** X4. Splitting undoes joining: bare identifiers joined with [", "] are
    split by [split_level] into the same identifiers, in the same order. *)
Theorem split_level_of_joined_atoms (ps : list string) :
  ps <> [] -> forallb plain_atom ps = true ->
  split_level (String.concat ", " ps) = Some ps.
Proof.
  intros Hne Hps. apply split_level_joined; [done|].
  rewrite forallb_forall in Hps. apply Forall_forall.
  intros p Hp%list_elem_of_In.
  destruct (plain_atom_spec p (Hps p Hp)) as [Htight Htext].
  split; [done | by apply plain_text_level_piece].
Qed.

Lemma split_level_of_joined_atoms_witness :
  split_level (String.concat ", " ["A"; "B c"; "d"]) = Some ["A"; "B c"; "d"].
Proof. apply split_level_of_joined_atoms; [discriminate | reflexivity]. Defined.

(** ** [repr] *)

(** X5. The rendering of a node is its delimiters around its children's
    renderings followed by its atoms, joined with [", "]: whichever of the
    two is missing, no separator is left dangling. *)
Theorem repr_joins_children_then_atoms (g : AEGraph) :
  repr g
  = String (if is_SA g then "(" else "[")%char
      (String.concat ", " (map repr (subgraphs g) ++ atoms g)
       +:+ String (if is_SA g then ")" else "]")%char "").
Proof. apply repr_pieces. Qed.

(** ** [sort] *)

Lemma sort_insert_Permutation {A} (lt : A -> A -> bool) (x : A) (l : list A) :
  sort_insert lt x l ≡ₚ x :: l.
Proof.
  induction l as [|y l IH]; [done|]. cbn [sort_insert].
  destruct (lt y x); [|done]. rewrite IH. apply perm_swap.
Qed.

Lemma std_sort_Permutation {A} (lt : A -> A -> bool) (l : list A) :
  std_sort lt l ≡ₚ l.
Proof.
  induction l as [|x l IH]; [done|].
  cbn [std_sort foldr]. fold (std_sort lt l).
  by rewrite sort_insert_Permutation, IH.
Qed.

Lemma concat_map_Permutation {A B} (f : A -> list B) (l l' : list A) :
  l ≡ₚ l' -> concat (map f l) ≡ₚ concat (map f l').
Proof.
  induction 1 as [|x l l' _ IH|x y l|l l' l'' _ IH1 _ IH2]; cbn [map concat].
  - done.
  - by rewrite IH.
  - rewrite !app_assoc. f_equiv. apply Permutation_app_comm.
  - by rewrite IH1.
Qed.

Lemma concat_map_pointwise {A B} (f h : A -> list B) (l : list A) :
  Forall (fun x => f x ≡ₚ h x) l -> concat (map f l) ≡ₚ concat (map h l).
Proof.
  induction 1 as [|x l Hx _ IH]; [done|]. cbn [map concat]. by rewrite Hx, IH.
Qed.

Lemma sort_all_atoms (g : AEGraph) : all_atoms (sort g) ≡ₚ all_atoms g.
Proof.
  induction g as [sa ats sgs IH] using AEGraph_nested_ind.
  cbn [sort all_atoms]. rewrite std_sort_Permutation. f_equiv.
  rewrite (concat_map_Permutation all_atoms _ _ (std_sort_Permutation _ _)).
  rewrite map_map. by apply concat_map_pointwise.
Qed.

(** X6. [sort] is idempotent, and the graphs it leaves as they are are
    exactly the canonical ones. *)
Theorem sort_idempotent (g : AEGraph) :
  sort (sort g) = sort g /\ (sort g = g <-> canonical g = true).
Proof.
  split.
  - apply sort_of_canonical, sort_canonical.
  - split; [|apply sort_of_canonical].
    intros Hfixed. rewrite <- Hfixed. apply sort_canonical.
Qed.

(** X7. [sort] only reorders: the node keeps its flag, its atoms are a
    permutation of the atoms it had, its children a permutation of its
    sorted children, and over the whole graph no atom is lost or added. *)
Theorem sort_only_reorders (g : AEGraph) :
  is_SA (sort g) = is_SA g
  /\ atoms (sort g) ≡ₚ atoms g
  /\ subgraphs (sort g) ≡ₚ map sort (subgraphs g)
  /\ all_atoms (sort g) ≡ₚ all_atoms g.
Proof.
  split; [by destruct g|]. split; [|split].
  - destruct g. apply std_sort_Permutation.
  - destruct g. apply std_sort_Permutation.
  - apply sort_all_atoms.
Qed.

(** ** The comparison operators *)

Lemma string_compare_refl (x : string) : String.compare x x = Eq.
Proof.
  pose proof (String.compare_antisym x x) as Hanti.
  by destruct (String.compare x x).
Qed.

Lemma string_ltb_leb (x y : string) :
  String.ltb x y = true <-> String.leb x y = true /\ x <> y.
Proof.
  unfold String.ltb, String.leb.
  destruct (String.compare x y) eqn:Hcmp; split; try done.
  - intros [_ Hne]. by apply String.compare_eq_iff in Hcmp.
  - intros _. split; [done|]. intros ->.
    by rewrite string_compare_refl in Hcmp.
  - by intros [? _].
Qed.

Lemma string_ltb_trans (x y z : string) :
  String.ltb x y = true -> String.ltb y z = true -> String.ltb x z = true.
Proof.
  intros Hxy Hyz. apply string_ltb_leb. split.
  - apply string_ltb_leb in Hxy as [Hxy _]. apply string_ltb_leb in Hyz as [Hyz _].
    apply Is_true_true. apply Is_true_true in Hxy, Hyz.
    exact (@transitivity _ String.le _ x y z Hxy Hyz).
  - intros ->. apply string_ltb_asym in Hxy. by rewrite Hxy in Hyz.
Qed.

Lemma string_trichotomy (x y : string) :
  (String.ltb x y = true /\ String.eqb x y = false /\ String.ltb y x = false)
  \/ (String.ltb x y = false /\ String.eqb x y = true /\ String.ltb y x = false)
  \/ (String.ltb x y = false /\ String.eqb x y = false /\ String.ltb y x = true).
Proof.
  unfold String.ltb. rewrite (String.compare_antisym x y).
  destruct (String.compare y x) eqn:Hcmp; cbn [CompOpp].
  - apply String.compare_eq_iff in Hcmp as ->. rewrite String.eqb_refl. tauto.
  - right. right. repeat split. apply String.eqb_neq. intros ->.
    by rewrite string_compare_refl in Hcmp.
  - left. repeat split. apply String.eqb_neq. intros ->.
    by rewrite string_compare_refl in Hcmp.
Qed.

(** X8. [operator<] is a strict total order up to [operator==]: no graph
    is below itself, the order is transitive, and of [a < b], [a == b] and
    [b < a] exactly one holds; [operator!=] is the negation of
    [operator==]. *)
Theorem operator_lt_strict_total_order (a b c : AEGraph) :
  operator_lt a a = false
  /\ (operator_lt a b = true -> operator_lt b c = true -> operator_lt a c = true)
  /\ ((operator_lt a b = true /\ operator_eq a b = false /\ operator_lt b a = false)
      \/ (operator_lt a b = false /\ operator_eq a b = true /\ operator_lt b a = false)
      \/ (operator_lt a b = false /\ operator_eq a b = false /\ operator_lt b a = true))
  /\ operator_ne a b = negb (operator_eq a b).
Proof.
  repeat split.
  - destruct (operator_lt a a) eqn:Hlt; [|done].
    apply operator_lt_asym in Hlt as Hlt'. by rewrite Hlt in Hlt'.
  - apply string_ltb_trans.
  - apply string_trichotomy.
Qed.

Lemma operator_lt_strict_total_order_witness :
  operator_lt (mkAEGraph false ["A"; "Z"] []) (mkAEGraph false ["B"] []) = true.
Proof.
  apply (proj1 (proj2 (operator_lt_strict_total_order
    (mkAEGraph false ["A"; "Z"] []) (mkAEGraph false ["A"] [])
    (mkAEGraph false ["B"] [])))); reflexivity.
Defined.

(** X9. On canonical graphs of bare-identifier atoms and cuts in which no
    node is empty, [operator==] is identity: two such graphs render alike
    only when they are the same graph. *)
Theorem operator_eq_is_identity (g h : AEGraph) :
  plain g = true -> canonical g = true -> has_content g = true ->
  plain h = true -> canonical h = true -> has_content h = true ->
  (operator_eq g h = true <-> g = h).
Proof.
  intros Hg1 Hg2 Hg3 Hh1 Hh2 Hh3. split.
  - intros Heq%String.eqb_eq.
    pose proof (AEGraph_of_string_repr_exact g Hg1 Hg2 Hg3) as Hg.
    pose proof (AEGraph_of_string_repr_exact h Hh1 Hh2 Hh3) as Hh.
    rewrite Heq, Hh in Hg. by injection Hg.
  - intros ->. apply String.eqb_refl.
Qed.

Lemma operator_eq_is_identity_witness :
  operator_eq sample_graph
    (mkAEGraph true ["A"] [mkAEGraph false ["A"; "D"] []]) = true
  <-> sample_graph = mkAEGraph true ["A"] [mkAEGraph false ["A"; "D"] []].
Proof. apply operator_eq_is_identity; reflexivity. Defined.

(** ** What the constructor builds *)

Lemma last_char_split (l r : ascii) (s : string) :
  last_char (String l s) = Some r -> s <> "" ->
  exists body, s = body +:+ String r "".
Proof.
  revert l. induction s as [|c s IH]; intros l; [done|]. intros Hlast _.
  rewrite last_char_cons in Hlast. destruct s as [|c' s].
  - cbn in Hlast. injection Hlast as ->. by exists "".
  - destruct (IH c Hlast) as (body & Hbody); [done|].
    exists (String c body). by rewrite append_cons, <- Hbody.
Qed.

Lemma add_elements_built_cut (build : string -> option AEGraph)
    (v ats ats' : list string) (sgs sgs' : list AEGraph) (c : AEGraph) :
  add_elements build v ats sgs = Some (ats', sgs') -> c ∈ sgs' ->
  c ∈ sgs \/ exists p, (first_char p =? "[")%char = true /\ build p = Some c.
Proof.
  revert ats sgs. induction v as [|p v IH]; intros ats sgs; cbn [add_elements].
  - intros [= <- <-]. by left.
  - destruct (first_char p =? "[")%char eqn:Hfirst; cbn [negb]; [|apply IH].
    destruct (build p) as [sg|] eqn:Hsg; [|done].
    intros Hadd Hc.
    destruct (IH _ _ Hadd Hc) as [[Hin | ->%list_elem_of_singleton]%elem_of_app | Hp];
      eauto.
Qed.

Lemma sort_is_SA (g : AEGraph) : is_SA (sort g) = is_SA g.
Proof. by destruct g. Qed.

Lemma sort_cuts_below (g : AEGraph) : cuts_below g = true -> cuts_below (sort g) = true.
Proof.
  induction g as [sa ats sgs IH] using AEGraph_nested_ind.
  cbn [sort cuts_below]. rewrite !forallb_forall. rewrite Forall_forall in IH.
  intros Hsgs c' (c & -> & Hc)%list_elem_of_In%std_sort_elem%list_elem_of_fmap.
  apply list_elem_of_In in Hc as Hin.
  destruct (andb_prop _ _ (Hsgs c Hin)) as [Hcut Hbelow].
  by rewrite sort_is_SA, Hcut, (IH c Hc Hbelow).
Qed.

Lemma AEGraph_fuel_shape (fuel : nat) (s : string) (g : AEGraph) :
  AEGraph_fuel fuel s = Some g ->
  (exists body,
     s = String (left_delimiter g) (body +:+ String (right_delimiter g) ""))
  /\ cuts_below g = true.
Proof.
  revert s g. induction fuel as [|fuel IH]; intros s g; [done|].
  cbn [AEGraph_fuel]. destruct s as [|left_sep s']; [done|].
  destruct (last_char _) as [right_sep|] eqn:Hlast; [|done].
  destruct (_ || _) eqn:Hcheck; [|done].
  destruct (split_level _) as [v|]; [|done].
  destruct (add_elements _ _ _ _) as [[ats sgs]|] eqn:Hadd; [|done].
  intros [= <-]. split.
  - unfold left_delimiter, right_delimiter. cbn [is_SA].
    assert (Hpair : left_sep = "("%char /\ right_sep = ")"%char
                    \/ left_sep = "["%char /\ right_sep = "]"%char).
    { apply orb_prop in Hcheck as [[H1 H2]%andb_prop | [H1 H2]%andb_prop];
        apply Ascii.eqb_eq in H1, H2; auto. }
    assert (Hne : s' <> "").
    { intros ->. cbn in Hlast. injection Hlast as <-.
      by destruct Hpair as [[-> ?] | [-> ?]]. }
    destruct (last_char_split _ _ _ Hlast Hne) as (body & ->).
    exists body. by destruct Hpair as [[-> ->] | [-> ->]].
  - apply (sort_cuts_below (mkAEGraph _ ats sgs)). cbn [cuts_below].
    apply forallb_forall. intros c Hc%list_elem_of_In.
    destruct (add_elements_built_cut _ _ _ _ _ _ c Hadd Hc)
      as [Hnil%elem_of_nil | (p & Hfirst & Hp)]; [done|].
    destruct (IH _ _ Hp) as [(body & Hbody) Hbelow].
    rewrite Hbelow, andb_true_r. apply negb_true_iff.
    rewrite Hbody in Hfirst. cbn [first_char] in Hfirst.
    unfold left_delimiter in Hfirst. by destruct (is_SA c).
Qed.

(** X10. A text the constructor accepts is a body between the delimiters
    of the node built, parentheses for a sheet of assertion and square
    brackets for a cut; and every node below the one built is a cut. *)
Theorem constructed_graph_shape (s : string) (g : AEGraph) :
  AEGraph_of_string s = Some g ->
  (exists body,
     s = String (if is_SA g then "(" else "[")%char
           (body +:+ String (if is_SA g then ")" else "]")%char ""))
  /\ cuts_below g = true.
Proof. apply AEGraph_fuel_shape. Qed.

Lemma constructed_graph_shape_witness :
  (exists body, "( A, [ [B] ] )" = String "(" (body +:+ String ")" ""))
  /\ cuts_below (mkAEGraph true ["A"]
       [mkAEGraph false [] [mkAEGraph false ["B"] []]]) = true.
Proof.
  exact (constructed_graph_shape "( A, [ [B] ] )"
    (mkAEGraph true ["A"] [mkAEGraph false [] [mkAEGraph false ["B"] []]]) eq_refl).
Defined.

(** X11. No node of a constructed graph is without content: the node built
    and every node below it hold at least one atom or child. *)
Theorem constructed_nodes_have_content (s : string) (g : AEGraph) :
  AEGraph_of_string s = Some g -> has_content g = true /\ 1 <= size g.
Proof.
  intros Hg%constructed_node_has_content. split; [done|].
  destruct g as [sa ats sgs]. cbn [has_content] in Hg.
  apply andb_prop in Hg as [Hne%negb_true_iff%Nat.eqb_neq _].
  unfold size, num_atoms, num_subgraphs. cbn [atoms subgraphs]. lia.
Qed.

Lemma constructed_nodes_have_content_witness :
  has_content (mkAEGraph false [] [mkAEGraph false [""] []]) = true
  /\ 1 <= size (mkAEGraph false [] [mkAEGraph false [""] []]).
Proof. apply (constructed_nodes_have_content "[[]]"). reflexivity. Defined.

(** X12. On a constructed graph, and on what a rule returns from it,
    [operator[]] returns a graph at every non-negative index: wrapping an
    atom of such a graph in parentheses is always accepted. *)
Theorem operator_subscript_on_constructed (s : string) (g : AEGraph) :
  AEGraph_of_string s = Some g ->
  (forall index, 0 <= index -> exists r, operator_subscript g index = Some r)
  /\ (forall r a g' index,
        applier r g a = Some g' -> 0 <= index ->
        exists r', operator_subscript g' index = Some r').
Proof.
  intros Hg%AEGraph_fuel_every_atom. split.
  - intros index. by apply operator_subscript_total.
  - intros r a g' index Hg'. apply operator_subscript_total.
    by eapply applier_every_atom.
Qed.

Lemma operator_subscript_on_constructed_witness :
  exists r, operator_subscript (mkAEGraph true ["x[a, b]"] [mkAEGraph false ["q"] []]) 1
            = Some r.
Proof.
  apply (proj1 (operator_subscript_on_constructed "(x[a, b], [q])"
    (mkAEGraph true ["x[a, b]"] [mkAEGraph false ["q"] []]) eq_refl)). lia.
Defined.

(** X13. Rendering a constructed graph of bare-identifier atoms and
    constructing again gives the identical graph. *)
Theorem construct_render_construct (s : string) (g : AEGraph) :
  AEGraph_of_string s = Some g -> plain g = true ->
  AEGraph_of_string (repr g) = Some g.
Proof.
  intros Hg Hplain. apply AEGraph_of_string_repr_exact; [done| |].
  - by eapply AEGraph_fuel_canonical.
  - by eapply constructed_node_has_content.
Qed.

Lemma construct_render_construct_witness :
  AEGraph_of_string (repr sample_graph) = Some sample_graph.
Proof.
  apply (construct_render_construct "(A, [[A]], [[[F, [G]]], [[E]]], [D, A])");
    reflexivity.
Defined.

(** ** [contains] and [get_paths_to] *)

Lemma existsb_lookup {A} (f : A -> bool) (l : list A) :
  existsb f l = true <-> exists (k : nat) (x : A), l !! k = Some x /\ f x = true.
Proof.
  rewrite existsb_exists. split.
  - intros (x & Hx%list_elem_of_In%list_elem_of_lookup & Hf).
    destruct Hx as [k Hk]. eauto.
  - intros (k & x & Hk & Hf). exists x. split; [|done].
    apply list_elem_of_In, list_elem_of_lookup. eauto.
Qed.

Lemma contains_atom_unfold (other : string) (g : AEGraph) :
  contains_atom other g
  = existsb (String.eqb other) (atoms g) || existsb (contains_atom other) (subgraphs g).
Proof. destruct g as [sa ats sgs]. cbn. by destruct (existsb _ ats). Qed.

Lemma contains_graph_unfold (other g : AEGraph) :
  contains_graph other g
  = existsb (fun sg => operator_eq sg other) (subgraphs g)
    || existsb (contains_graph other) (subgraphs g).
Proof. destruct g as [sa ats sgs]. cbn. by destruct (existsb _ sgs). Qed.

Lemma contains_atom_node (other : string) (g p : AEGraph) (path : list Z) :
  node_at g path = Some p -> In other (atoms p) -> contains_atom other g = true.
Proof.
  revert g. induction path as [|j path IH]; intros g; cbn [node_at].
  - intros [= ->] Hin. rewrite contains_atom_unfold. apply orb_true_intro. left.
    apply existsb_exists. exists other. by rewrite String.eqb_refl.
  - destruct (at_index (subgraphs g) j) as [sub|] eqn:Hsub; [|done].
    intros Hp Hin. rewrite contains_atom_unfold. apply orb_true_intro. right.
    apply at_index_Some in Hsub as [_ Hsub].
    apply existsb_lookup. exists (Z.to_nat j), sub. split; [done | by apply IH].
Qed.

Lemma contains_atom_found (other : string) (g : AEGraph) :
  contains_atom other g = true ->
  exists path p, node_at g path = Some p /\ In other (atoms p).
Proof.
  induction g as [sa ats sgs IH] using AEGraph_nested_ind.
  rewrite contains_atom_unfold. cbn [atoms subgraphs].
  intros [Hhere | Hbelow]%orb_prop.
  - apply existsb_exists in Hhere as (x & Hx & ->%String.eqb_eq).
    by exists [], (mkAEGraph sa ats sgs).
  - apply existsb_lookup in Hbelow as (k & c & Hk & Hc).
    rewrite Forall_lookup in IH.
    destruct (IH k c Hk Hc) as (path & p & Hp & Hin).
    exists (Z.of_nat k :: path), p. by rewrite (node_at_cons _ c).
Qed.

(** X14. [contains] for an atom answers true exactly when some node of the
    graph, the root or a cut at any depth, holds that atom. *)
Theorem contains_atom_anywhere (other : string) (g : AEGraph) :
  contains_atom other g = true <->
  exists path p, node_at g path = Some p /\ In other (atoms p).
Proof.
  split; [apply contains_atom_found|].
  intros (path & p & Hp & Hin). by eapply contains_atom_node.
Qed.

Lemma contains_graph_node (other g p c : AEGraph) (path : list Z) :
  node_at g path = Some p -> In c (subgraphs p) -> operator_eq c other = true ->
  contains_graph other g = true.
Proof.
  intros Hp Hin Heq. revert g Hp.
  induction path as [|j path IH]; intros g; cbn [node_at].
  - intros [= ->]. rewrite contains_graph_unfold. apply orb_true_intro. left.
    apply existsb_exists. eauto.
  - destruct (at_index (subgraphs g) j) as [sub|] eqn:Hsub; [|done].
    intros Hp. rewrite contains_graph_unfold. apply orb_true_intro. right.
    apply at_index_Some in Hsub as [_ Hsub].
    apply existsb_lookup. exists (Z.to_nat j), sub. split; [done | by apply IH].
Qed.

Lemma contains_graph_found (other g : AEGraph) :
  contains_graph other g = true ->
  exists path p c,
    node_at g path = Some p /\ In c (subgraphs p) /\ operator_eq c other = true.
Proof.
  induction g as [sa ats sgs IH] using AEGraph_nested_ind.
  rewrite contains_graph_unfold. cbn [subgraphs].
  intros [Hhere | Hbelow]%orb_prop.
  - apply existsb_exists in Hhere as (c & Hc & Heq).
    by exists [], (mkAEGraph sa ats sgs), c.
  - apply existsb_lookup in Hbelow as (k & c & Hk & Hc).
    rewrite Forall_lookup in IH.
    destruct (IH k c Hk Hc) as (path & p & c' & Hp & Hin & Heq).
    exists (Z.of_nat k :: path), p, c'. by rewrite (node_at_cons _ c).
Qed.

(** X15. [contains] for a graph answers true exactly when some node of the
    graph has a child that compares equal to it; the graph itself is not
    looked at, only children. *)
Theorem contains_graph_anywhere (other g : AEGraph) :
  contains_graph other g = true <->
  exists path p c,
    node_at g path = Some p /\ In c (subgraphs p) /\ operator_eq c other = true.
Proof.
  split; [apply contains_graph_found|].
  intros (path & p & c & Hp & Hin & Heq). by eapply contains_graph_node.
Qed.

Lemma element_at_atom (p : AEGraph) (i : Z) (a : string) :
  element_at p i = Some (inr a) <->
  num_subgraphs p <= i /\ at_index (atoms p) (i - num_subgraphs p) = Some a.
Proof.
  unfold element_at. destruct (Z.ltb_spec i (num_subgraphs p)) as [Hlt|Hge].
  - split; [|lia]. by destruct (at_index (subgraphs p) i).
  - destruct (at_index (atoms p) _) as [x|]; cbn; split.
    + by intros [= ->].
    + by intros [_ [= ->]].
    + done.
    + by intros [_ ?].
Qed.

Lemma element_at_child (p : AEGraph) (i : Z) (c : AEGraph) :
  element_at p i = Some (inl c) <-> at_index (subgraphs p) i = Some c.
Proof.
  unfold element_at. destruct (Z.ltb_spec i (num_subgraphs p)) as [Hlt|Hge].
  - destruct (at_index (subgraphs p) i) as [x|]; cbn; split; try done.
    + by intros [= ->].
    + by intros [= ->].
  - split; [by destruct (at_index (atoms p) _)|].
    intros [Hi _]%at_index_Some. unfold num_subgraphs in Hge. lia.
Qed.

(** X16. [get_paths_to] for an atom returns exactly the addresses of the
    occurrences of the atom in nodes of size above 1: the test on
    [contains] before each descent loses none of them. *)
Theorem get_paths_to_atom_exact (other : string) (g : AEGraph) (a : list Z) :
  In a (get_paths_to_atom other g) <->
  exists path i p,
    a = path ++ [i] /\ node_at g path = Some p /\
    element_at p i = Some (inr other) /\ 1 < size p.
Proof.
  rewrite <- list_elem_of_In. split.
  - intros (path & i & p & -> & Hp & Hi & Hat & Hsize)%get_paths_to_atom_resolve.
    exists path, i, p. repeat split; try done. by apply element_at_atom.
  - intros (path & i & p & -> & Hp & [Hi Hat]%element_at_atom & Hsize).
    revert g Hp. induction path as [|j path IH]; intros g; cbn [node_at].
    + intros [= ->]. rewrite get_paths_to_atom_eq, elem_of_app. left.
      apply at_index_Some in Hat as [Hrange Hat].
      apply elem_of_collect. exists (Z.to_nat (i - num_subgraphs p)), other.
      split; [done|]. rewrite String.eqb_refl.
      destruct (Z.ltb_spec 1 (size p)); [|lia]. cbn [andb app].
      apply list_elem_of_singleton. f_equal. lia.
    + destruct (at_index (subgraphs g) j) as [sub|] eqn:Hsub; [|done].
      intros Hp. rewrite get_paths_to_atom_eq, elem_of_app. right.
      apply at_index_Some in Hsub as [Hj Hsub].
      apply elem_of_collect. exists (Z.to_nat j), sub. split; [done|].
      rewrite (contains_atom_node other sub p path Hp).
      * apply elem_of_prepend. exists (path ++ [i]).
        split; [cbn; f_equal; lia | by apply IH].
      * apply at_index_Some in Hat as [_ Hat].
        apply list_elem_of_In, list_elem_of_lookup. eauto.
Qed.

(** X17. Every address [get_paths_to] returns for a subgraph names a child
    that compares equal to it, in a node of size above 1; and when any
    address is returned, [contains] answers true for that subgraph. *)
Theorem get_paths_to_graph_sound (other g : AEGraph) (a : list Z) :
  In a (get_paths_to_graph other g) ->
  (exists path i p c,
     a = path ++ [i] /\ node_at g path = Some p /\
     element_at p i = Some (inl c) /\ operator_eq c other = true /\ 1 < size p)
  /\ contains_graph other g = true.
Proof.
  intros (path & i & p & c & -> & Hp & Hc & Heq & Hsize)
    %list_elem_of_In%get_paths_to_graph_resolve.
  split.
  - exists path, i, p, c. repeat split; try done. by apply element_at_child.
  - apply (contains_graph_node other g p c path); try done.
    apply at_index_Some in Hc as [_ Hc].
    apply list_elem_of_In, list_elem_of_lookup. eauto.
Qed.

Lemma get_paths_to_graph_sound_witness :
  (exists path i p c,
     [2; 1; 0; 0] = path ++ [i] /\ node_at sample_graph path = Some p /\
     element_at p i = Some (inl c) /\
     operator_eq c (mkAEGraph false ["G"] []) = true /\ 1 < size p)
  /\ contains_graph (mkAEGraph false ["G"] []) sample_graph = true.
Proof. apply get_paths_to_graph_sound. vm_compute. tauto. Defined.

(** ** The enumerators, exactly *)

(** X18. [possible_double_cuts] returns exactly the addresses of the cuts,
    at any depth, that hold one cut and nothing else. *)
Theorem possible_double_cuts_exact (g : AEGraph) (a : list Z) :
  In a (possible_double_cuts g) <->
  exists path i p outer,
    a = path ++ [i] /\ node_at g path = Some p /\
    element_at p i = Some (inl outer) /\ double_cut_shape outer = true.
Proof.
  rewrite <- list_elem_of_In. split.
  - intros (path & i & p & outer & -> & Hp & Hout & Hshape)%possible_double_cuts_resolve.
    exists path, i, p, outer. repeat split; try done. by apply element_at_child.
  - intros (path & i & p & outer & -> & Hp & Hout%element_at_child & Hshape).
    revert g Hp. induction path as [|j path IH]; intros g; cbn [node_at].
    + intros [= ->]. apply at_index_Some in Hout as [Hi Hout].
      rewrite possible_double_cuts_eq. apply elem_of_collect.
      exists (Z.to_nat i), outer. split; [done|]. rewrite Hshape.
      apply elem_of_app. left. apply list_elem_of_singleton. cbn. f_equal. lia.
    + destruct (at_index (subgraphs g) j) as [sub|] eqn:Hsub; [|done].
      intros Hp. apply at_index_Some in Hsub as [Hj Hsub].
      rewrite possible_double_cuts_eq. apply elem_of_collect.
      exists (Z.to_nat j), sub. split; [done|].
      apply elem_of_app. right. apply elem_of_prepend.
      exists (path ++ [i]). split; [cbn; f_equal; lia | by apply IH].
Qed.

Lemma rem_minus_one_even (n : nat) :
  Z.rem (-1 + Z.of_nat n) 2 <> 0 <-> Nat.even n = true.
Proof.
  destruct n as [|m]; [done|].
  replace (-1 + Z.of_nat (S m)) with (Z.of_nat m) by lia.
  rewrite Z.rem_mod_nonneg, Zmod_odd, odd_of_nat, Nat.even_succ by lia.
  by destruct (Nat.odd m).
Qed.

(** X19. Started at level -1, [possible_erasures] returns exactly the
    addresses of the elements of nodes reached through an even number of
    cuts; a sole element is left out below the root, but at the root every
    element is offered, a sole one too. *)
Theorem possible_erasures_from_minus_one (g : AEGraph) (a : list Z) :
  In a (possible_erasures (-1) g) <->
  exists path i p,
    a = path ++ [i] /\ node_at g path = Some p /\ 0 <= i < size p /\
    Nat.even (length path) = true /\ (path = [] \/ sole_content p = false).
Proof.
  rewrite <- list_elem_of_In, possible_erasures_resolve.
  split; intros (path & i & p & Ha & Hp & Hi & Hlevel & Hsole);
    exists path, i, p; repeat split; try done; try lia.
  - by apply rem_minus_one_even.
  - destruct Hsole as [Hroot|Hsole]; [|by right].
    left. destruct path; [done | cbn [length] in Hroot; lia].
  - by apply rem_minus_one_even.
  - destruct Hsole as [->|Hsole]; [by left | by right].
Qed.

(** ** The appliers, exactly *)

Lemma at_index_delete {A} (v : list A) (i j : Z) :
  0 <= i < Z.of_nat (length v) -> 0 <= j ->
  at_index (delete (Z.to_nat i) v) j = at_index v (if j <? i then j else j + 1).
Proof.
  intros Hi Hj. unfold at_index.
  rewrite length_delete by (apply lookup_lt_is_Some_2; lia).
  destruct (Z.ltb_spec j i) as [Hlt|Hge].
  - repeat case_test; cbn [andb]; try lia; try done.
    apply list_lookup_delete_lt. lia.
  - repeat case_test; cbn [andb]; try lia; try done.
    rewrite list_lookup_delete_ge by lia. f_equal. lia.
Qed.

Lemma element_at_remove_element (p : AEGraph) (i j : Z) :
  0 <= i < size p -> 0 <= j ->
  element_at (remove_element i p) j = element_at p (if j <? i then j else j + 1).
Proof.
  intros Hi Hj. unfold size, num_atoms in Hi.
  unfold remove_element, element_at, num_subgraphs in *.
  destruct (Z.ltb_spec i (Z.of_nat (length (subgraphs p)))) as [Hchild|Hatom];
    cbn [subgraphs atoms].
  - rewrite length_delete by (apply lookup_lt_is_Some_2; lia).
    destruct (Z.ltb_spec j i); repeat case_test; try lia.
    + rewrite at_index_delete by lia. by case_test; [|lia].
    + rewrite at_index_delete by lia. by case_test; [lia|].
    + do 2 f_equal. lia.
  - destruct (Z.ltb_spec j i); repeat case_test; try lia; try done.
    + rewrite at_index_delete by lia. by case_test; [|lia].
    + rewrite at_index_delete by lia. case_test; [lia|]. do 2 f_equal. lia.
Qed.

Lemma size_remove_element (p : AEGraph) (i : Z) :
  0 <= i < size p -> size (remove_element i p) = size p - 1.
Proof.
  unfold remove_element, size, num_atoms, num_subgraphs. intros Hi.
  case_test; cbn [atoms subgraphs];
    rewrite length_delete by (apply lookup_lt_is_Some_2; lia); lia.
Qed.

(** X20. [erase] and [deiterate] return a graph exactly at the addresses
    that name an element of the graph: every index but the last a child
    index in range, the last inside the unified index space of the node
    reached.  Everywhere else they read or erase out of range. *)
Theorem erase_defined_where_address_resolves (g : AEGraph) (a : list Z) :
  ((exists g', erase g a = Some g') <-> (exists e, resolve g a = Some e))
  /\ ((exists g', deiterate g a = Some g') <-> (exists e, resolve g a = Some e)).
Proof.
  assert (Herase : (exists g', erase g a = Some g') <-> (exists e, resolve g a = Some e)).
  { destruct a as [|i path _] using rev_ind.
    { split; by intros [? ?]. }
    unfold erase. rewrite erase_helper_app, resolve_app. unfold through_path.
    destruct (node_at g path) as [p|]; [|split; by intros [? ?]].
    rewrite element_at_defined, <- erase_helper_last_defined.
    destruct (erase_helper [i] p); split; intros [? ?]; eauto; done. }
  split; [done|]. unfold deiterate. by rewrite deiterate_helper_erase_helper.
Qed.

(** X21. At an address that names element [i] of the node [p], [erase]
    rewrites that node only, which loses exactly this element: its size
    drops by one, the elements before [i] keep their unified index and
    those after it move down by one. *)
Theorem erase_removes_one_element (g p : AEGraph) (path : list Z) (i : Z) :
  node_at g path = Some p -> 0 <= i < size p ->
  erase g (path ++ [i]) = Some (update_at (remove_element i) path g)
  /\ node_at (update_at (remove_element i) path g) path = Some (remove_element i p)
  /\ size (remove_element i p) = size p - 1
  /\ forall j, 0 <= j ->
       element_at (remove_element i p) j = element_at p (if j <? i then j else j + 1).
Proof.
  intros Hp Hi. repeat split.
  - by apply (erase_removes g p).
  - by apply node_at_update_at.
  - by apply size_remove_element.
  - intros j Hj. by apply element_at_remove_element.
Qed.

Lemma erase_removes_one_element_witness :
  erase sample_graph ([2; 1; 0] ++ [0])
  = Some (update_at (remove_element 0) [2; 1; 0] sample_graph)
  /\ node_at (update_at (remove_element 0) [2; 1; 0] sample_graph) [2; 1; 0]
     = Some (remove_element 0 (mkAEGraph false ["F"] [mkAEGraph false ["G"] []]))
  /\ size (remove_element 0 (mkAEGraph false ["F"] [mkAEGraph false ["G"] []]))
     = size (mkAEGraph false ["F"] [mkAEGraph false ["G"] []]) - 1
  /\ forall j, 0 <= j ->
       element_at (remove_element 0 (mkAEGraph false ["F"] [mkAEGraph false ["G"] []])) j
       = element_at (mkAEGraph false ["F"] [mkAEGraph false ["G"] []])
           (if j <? 0 then j else j + 1).
Proof. apply erase_removes_one_element; [reflexivity | vm_compute; split; congruence]. Defined.

Lemma double_cut_helper_last_inv (i : Z) (p p' : AEGraph) :
  double_cut_helper [i] p = Some p' ->
  exists outer inner,
    at_index (subgraphs p) i = Some outer /\ at_index (subgraphs outer) 0 = Some inner.
Proof.
  cbn [double_cut_helper]. change (capacity [i] =? 1) with true. cbn [negb].
  destruct (at_index (subgraphs p) i) as [outer|]; [|done].
  destruct (at_index (subgraphs outer) 0) as [inner|] eqn:Hin; [|done].
  intros _. by exists outer, inner.
Qed.

(** X22. [double_cut] returns a graph exactly at the addresses that name a
    child holding at least one cut, and what it returns is the graph with
    that child replaced, in its parent, by the content of its first cut.
    The shape of the child is not checked: atoms and further cuts it holds
    are dropped with it. *)
Theorem double_cut_exact (g g' : AEGraph) (a : list Z) :
  double_cut g a = Some g' <->
  exists path i p outer inner,
    a = path ++ [i] /\ node_at g path = Some p /\
    at_index (subgraphs p) i = Some outer /\
    at_index (subgraphs outer) 0 = Some inner /\
    g' = update_at (splice i inner) path g.
Proof.
  split.
  - destruct a as [|i path _] using rev_ind; [done|].
    unfold double_cut. rewrite double_cut_helper_app. unfold through_path.
    destruct (node_at g path) as [p|] eqn:Hp; [|done].
    destruct (double_cut_helper [i] p) as [p'|] eqn:Hp'; [|done].
    intros [= <-].
    destruct (double_cut_helper_last_inv i p p' Hp') as (outer & inner & Hout & Hin).
    exists path, i, p, outer, inner. repeat split; try done.
    rewrite (double_cut_helper_last i p outer inner Hout Hin) in Hp'.
    injection Hp' as <-. by apply update_at_node.
  - intros (path & i & p & outer & inner & -> & Hp & Hout & Hin & ->).
    by apply (double_cut_splices g p outer inner).
Qed.

(** X23. After a double cut at child [i] of the node [p], that node holds
    what it held, less the child, plus the content of the child's first
    cut: its size is the size of [p], less one, plus the size of that
    cut. *)
Theorem double_cut_size (g p outer inner : AEGraph) (path : list Z) (i : Z) :
  node_at g path = Some p ->
  at_index (subgraphs p) i = Some outer ->
  at_index (subgraphs outer) 0 = Some inner ->
  exists g' p',
    double_cut g (path ++ [i]) = Some g' /\ node_at g' path = Some p' /\
    size p' = size p - 1 + size inner.
Proof.
  intros Hp Hout Hin.
  exists (update_at (splice i inner) path g), (splice i inner p).
  split; [by apply (double_cut_splices g p outer inner)|].
  split; [by apply node_at_update_at|].
  apply at_index_Some in Hout as [Hi Hout].
  unfold size, num_atoms, num_subgraphs, splice. cbn [atoms subgraphs].
  rewrite !length_app, length_delete by (by eexists). lia.
Qed.

Lemma double_cut_size_witness :
  exists g' p',
    double_cut sample_graph ([2] ++ [1]) = Some g' /\ node_at g' [2] = Some p' /\
    size p' = 2 - 1 + size (mkAEGraph false ["F"] [mkAEGraph false ["G"] []]).
Proof.
  apply (double_cut_size sample_graph
    (mkAEGraph false []
        [ mkAEGraph false [] [mkAEGraph false ["E"] []];
          mkAEGraph false [] [mkAEGraph false ["F"] [mkAEGraph false ["G"] []]] ])
    (mkAEGraph false [] [mkAEGraph false ["F"] [mkAEGraph false ["G"] []]]));
    reflexivity.
Defined.

Lemma Forall_concat_map {A B} (P : B -> Prop) (f : A -> list B) (l : list A) :
  Forall P (concat (map f l)) <-> Forall (fun x => Forall P (f x)) l.
Proof.
  induction l as [|x l IH]; cbn [map concat].
  - split; constructor.
  - rewrite Forall_app, Forall_cons, IH. done.
Qed.

Lemma every_atom_all_atoms (P : string -> Prop) (g : AEGraph) :
  every_atom P g <-> Forall P (all_atoms g).
Proof.
  induction g as [sa ats sgs IH] using AEGraph_nested_ind.
  cbn [all_atoms]. rewrite Forall_app, Forall_concat_map. split.
  - intros [Hats Hsgs]%every_atom_inv. cbn [atoms subgraphs] in *.
    split; [done|]. rewrite Forall_forall in IH. rewrite Forall_forall in Hsgs.
    apply Forall_forall. intros c Hc. by apply IH, Hsgs.
  - intros [Hats Hsgs]. constructor; [done|].
    rewrite Forall_forall in IH. rewrite Forall_forall in Hsgs.
    apply Forall_forall. intros c Hc. by apply IH, Hsgs.
Qed.

Lemma erase_helper_is_SA (a : list Z) (g g' : AEGraph) :
  erase_helper a g = Some g' -> is_SA g' = is_SA g.
Proof.
  destruct a as [|w0 rest]; [done|]. cbn [erase_helper].
  destruct (negb _).
  - destruct (at_index (subgraphs g) w0) as [sub|]; [|done].
    destruct (erase_helper rest sub); [|done]. by intros [= <-].
  - destruct (_ <=? 0); [|destruct (0 <? _)].
    + destruct (erase_index (atoms g) _); [|done]. by intros [= <-].
    + destruct (erase_index (subgraphs g) _); [|done]. by intros [= <-].
    + by intros [= <-].
Qed.

Lemma double_cut_helper_is_SA (a : list Z) (g g' : AEGraph) :
  double_cut_helper a g = Some g' -> is_SA g' = is_SA g.
Proof.
  destruct a as [|w0 rest]; [done|]. cbn [double_cut_helper].
  destruct (negb _).
  - destruct (at_index (subgraphs g) w0) as [sub|]; [|done].
    destruct (double_cut_helper rest sub); [|done]. by intros [= <-].
  - destruct (at_index (subgraphs g) w0) as [outer|]; [|done].
    destruct (at_index (subgraphs outer) 0) as [aux|]; [|done].
    destruct (erase_index _ w0); [|done]. by intros [= <-].
Qed.

(** X24. A rule returns a graph of the same kind, sheet of assertion or
    cut, as the one it is given, and invents no atom: every atom of the
    result, at any depth, is an atom of the input. *)
Theorem applier_keeps_flag_and_atoms (r : rule) (g g' : AEGraph) (a : list Z) :
  applier r g a = Some g' ->
  is_SA g' = is_SA g /\ forall x, In x (all_atoms g') -> In x (all_atoms g).
Proof.
  intros Hg'. split.
  - destruct r; cbn [applier] in Hg'.
    + by apply double_cut_helper_is_SA in Hg'.
    + by apply erase_helper_is_SA in Hg'.
    + unfold deiterate in Hg'. rewrite deiterate_helper_erase_helper in Hg'.
      by apply erase_helper_is_SA in Hg'.
  - assert (Hin : every_atom (fun x => In x (all_atoms g)) g).
    { apply every_atom_all_atoms, Forall_forall. intros x Hx. by apply list_elem_of_In. }
    apply (applier_every_atom _ r g g' a) in Hin; [|done].
    apply every_atom_all_atoms in Hin. rewrite Forall_forall in Hin.
    intros x Hx. by apply Hin, list_elem_of_In.
Qed.

Lemma applier_keeps_flag_and_atoms_witness :
  is_SA (update_at (remove_element 0) [0] sample_graph) = is_SA sample_graph
  /\ forall x, In x (all_atoms (update_at (remove_element 0) [0] sample_graph)) ->
               In x (all_atoms sample_graph).
Proof.
  apply (applier_keeps_flag_and_atoms deiteration_rule sample_graph _ [0; 0]).
  reflexivity.
Defined.

Lemma double_cut_exact_witness :
  double_cut
    (mkAEGraph true ["A"]
       [mkAEGraph false ["B"] [mkAEGraph false ["C"] []; mkAEGraph false ["D"] []]])
    [0]
  = Some (mkAEGraph true ["A"; "C"] []).
Proof.
  apply (proj2 (double_cut_exact _ _ _)).
  exists [], 0,
    (mkAEGraph true ["A"]
       [mkAEGraph false ["B"] [mkAEGraph false ["C"] []; mkAEGraph false ["D"] []]]),
    (mkAEGraph false ["B"] [mkAEGraph false ["C"] []; mkAEGraph false ["D"] []]),
    (mkAEGraph false ["C"] []).
  repeat split.
Defined.

(** ** Rules and the invariants of a graph *)

Lemma string_ltb_false_leb (x y : string) :
  String.ltb y x = false <-> String.leb x y = true.
Proof.
  unfold String.ltb, String.leb. rewrite (String.compare_antisym y x).
  by destruct (String.compare x y).
Qed.

Lemma string_not_below_trans (x y z : string) :
  String.ltb y x = false -> String.ltb z y = false -> String.ltb z x = false.
Proof.
  rewrite !string_ltb_false_leb. intros Hxy Hyz.
  apply Is_true_true. apply Is_true_true in Hxy, Hyz.
  exact (@transitivity _ String.le _ x y z Hxy Hyz).
Qed.

Lemma is_sorted_delete {A} (lt : A -> A -> bool) (l : list A) (i : nat) :
  (forall x y z, lt y x = false -> lt z y = false -> lt z x = false) ->
  is_sorted lt l = true -> is_sorted lt (delete i l) = true.
Proof.
  intros Htrans. revert i. induction l as [|x l IH]; intros i Hl; [by destruct i|].
  destruct i as [|i]; [by apply is_sorted_cons in Hl|].
  change (delete (S i) (x :: l)) with (x :: delete i l).
  rewrite is_sorted_unfold in Hl |- *. apply andb_prop in Hl as [Hhead Hl].
  rewrite (IH i Hl), andb_true_r.
  destruct l as [|y l]; [by destruct i|]. destruct i as [|i]; [|done].
  change (delete 0 (y :: l)) with l. destruct l as [|z l]; [done|].
  rewrite is_sorted_unfold in Hl. apply andb_prop in Hl as [Hzy _].
  apply negb_true_iff in Hhead, Hzy. apply negb_true_iff. by eapply Htrans.
Qed.

Lemma forallb_delete {A} (f : A -> bool) (l : list A) (i : nat) :
  forallb f l = true -> forallb f (delete i l) = true.
Proof.
  rewrite !forallb_forall. intros Hl x Hx%list_elem_of_In%list_elem_of_delete_inv.
  by apply Hl, list_elem_of_In.
Qed.

Lemma remove_element_canonical (g : AEGraph) (i : Z) :
  canonical g = true -> canonical (remove_element i g) = true.
Proof.
  destruct g as [sa ats sgs]. unfold remove_element. cbn [canonical].
  intros [[Hats Hsgs]%andb_prop Hall]%andb_prop.
  destruct (_ <? _); cbn [canonical is_SA atoms subgraphs].
  - rewrite Hats, forallb_delete, is_sorted_delete; try done.
    intros x y z. apply string_not_below_trans.
  - rewrite Hsgs, Hall, is_sorted_delete; try done.
    apply string_not_below_trans.
Qed.

(** X25. Removing an element of the root keeps a canonical graph
    canonical: [erase] and [deiterate] at a one-index address return a
    canonical graph when given one.  (Order can only be lost when the
    removal is deeper, where it changes the rendering of an ancestor.) *)
Theorem erase_at_root_keeps_canonical (g g' : AEGraph) (i : Z) :
  canonical g = true ->
  (erase g [i] = Some g' -> canonical g' = true)
  /\ (deiterate g [i] = Some g' -> canonical g' = true).
Proof.
  intros Hcanon.
  assert (Herase : erase g [i] = Some g' -> canonical g' = true).
  { intros Hg'. assert (Hi : 0 <= i < size g).
    { apply erase_helper_last_defined. eauto. }
    unfold erase in Hg'. rewrite erase_helper_last in Hg' by done.
    injection Hg' as <-. by apply remove_element_canonical. }
  split; [done|]. unfold deiterate. by rewrite deiterate_helper_erase_helper.
Qed.

Lemma erase_at_root_keeps_canonical_witness :
  canonical (mkAEGraph true ["A"]
    [ mkAEGraph false ["A"; "D"] [];
      mkAEGraph false []
        [ mkAEGraph false [] [mkAEGraph false ["E"] []];
          mkAEGraph false [] [mkAEGraph false ["F"] [mkAEGraph false ["G"] []]] ] ])
  = true.
Proof.
  apply (proj1 (erase_at_root_keeps_canonical sample_graph _ 1 eq_refl)).
  reflexivity.
Defined.

Lemma has_content_unfold (g : AEGraph) :
  has_content g
  = negb ((length (atoms g) + length (subgraphs g) =? 0)%nat)
    && forallb has_content (subgraphs g).
Proof. by destruct g. Qed.

Lemma has_content_inv (g : AEGraph) :
  has_content g = true ->
  1 <= size g /\ forallb has_content (subgraphs g) = true.
Proof.
  rewrite has_content_unfold. intros [Hne%negb_true_iff%Nat.eqb_neq Hall]%andb_prop.
  split; [|done]. unfold size, num_atoms, num_subgraphs. lia.
Qed.

Lemma has_content_intro (g : AEGraph) :
  1 <= size g -> forallb has_content (subgraphs g) = true -> has_content g = true.
Proof.
  unfold size, num_atoms, num_subgraphs. intros Hsize Hall.
  rewrite has_content_unfold, Hall, andb_true_r.
  apply negb_true_iff, Nat.eqb_neq. lia.
Qed.

Lemma has_content_child (g sub : AEGraph) (i : Z) :
  has_content g = true -> at_index (subgraphs g) i = Some sub ->
  has_content sub = true.
Proof.
  intros [_ Hall]%has_content_inv [_ Hsub]%at_index_Some.
  rewrite forallb_forall in Hall.
  apply Hall, list_elem_of_In, list_elem_of_lookup. eauto.
Qed.

Lemma forallb_insert {A} (f : A -> bool) (l : list A) (i : nat) (x : A) :
  forallb f l = true -> f x = true -> forallb f (<[i:=x]> l) = true.
Proof.
  revert i. induction l as [|y l IH]; intros i; [done|]. cbn [forallb].
  intros [Hy Hl]%andb_prop Hx. destruct i as [|i]; cbn [forallb].
  - change (<[0%nat:=x]> (y :: l)) with (x :: l). cbn [forallb]. by rewrite Hx, Hl.
  - change (<[S i:=x]> (y :: l)) with (y :: <[i:=x]> l). cbn [forallb].
    by rewrite Hy, IH.
Qed.

Lemma has_content_update_at (f : AEGraph -> AEGraph) (path : list Z) (g p : AEGraph) :
  has_content g = true -> node_at g path = Some p -> has_content (f p) = true ->
  has_content (update_at f path g) = true.
Proof.
  revert g. induction path as [|j path IH]; intros g Hg; cbn [node_at update_at].
  - by intros [= ->].
  - destruct (at_index (subgraphs g) j) as [sub|] eqn:Hsub; [|done].
    intros Hp Hfp. destruct (has_content_inv g Hg) as [Hsize Hall].
    apply has_content_intro.
    + unfold size, num_atoms, num_subgraphs, set_subgraph in *.
      cbn [atoms subgraphs]. by rewrite length_insert.
    + unfold set_subgraph. cbn [subgraphs]. apply forallb_insert; [done|].
      apply IH; [exact (has_content_child g sub j Hg Hsub) | done | done].
Qed.

Lemma has_content_node_at (path : list Z) (g q : AEGraph) :
  has_content g = true -> node_at g path = Some q -> has_content q = true.
Proof.
  revert g. induction path as [|j path IH]; intros g Hg; cbn [node_at];
    [by intros [= <-]|].
  destruct (at_index (subgraphs g) j) as [sub|] eqn:Hsub; [|done].
  apply IH. exact (has_content_child g sub j Hg Hsub).
Qed.

Lemma remove_element_has_content (p : AEGraph) (i : Z) :
  has_content p = true -> 0 <= i < size p -> 2 <= size p ->
  has_content (remove_element i p) = true.
Proof.
  intros [_ Hall]%has_content_inv Hi Hsize. apply has_content_intro.
  - rewrite size_remove_element by done. lia.
  - unfold remove_element. destruct (_ <? _); cbn [subgraphs]; [|done].
    by apply forallb_delete.
Qed.

Lemma splice_has_content (p outer inner : AEGraph) (i : Z) :
  has_content p = true -> at_index (subgraphs p) i = Some outer ->
  at_index (subgraphs outer) 0 = Some inner ->
  has_content (splice i inner p) = true.
Proof.
  intros Hp Hout Hin.
  assert (Hinner : has_content inner = true).
  { apply (has_content_child outer inner 0); [|done].
    exact (has_content_child p outer i Hp Hout). }
  destruct (has_content_inv p Hp) as [_ Hall].
  destruct (has_content_inv inner Hinner) as [Hsize Hall_in].
  apply at_index_Some in Hout as [Hi Hout].
  apply has_content_intro.
  - unfold size, num_atoms, num_subgraphs, splice in *. cbn [atoms subgraphs].
    rewrite !length_app, length_delete by (by eexists). lia.
  - unfold splice. cbn [subgraphs]. rewrite forallb_app, Hall_in, andb_true_r.
    by apply forallb_delete.
Qed.

Lemma not_sole_size (p : AEGraph) (i : Z) :
  sole_content p = false -> 0 <= i < size p -> 2 <= size p.
Proof.
  unfold sole_content, size. intros Hsole Hi.
  apply orb_false_elim in Hsole as [H1 H2].
  revert H1 H2. unfold num_atoms, num_subgraphs in *.
  repeat case_test; cbn [andb]; try done; lia.
Qed.

(** X26. Applied at an address its enumerator returns, a rule never
    leaves a node without content: if every node of the graph holds an
    atom or a child, so does every node of the result.  For erasure this
    holds when the enumeration starts at a level that is not negative (at
    level -1 the sole element of the root is offered). *)
Theorem enumerated_rule_keeps_content (r : rule) (g : AEGraph) (a : list Z) :
  has_content g = true ->
  (forall level, r = erasure_rule level -> 0 <= level) ->
  In a (enumerator r g) ->
  exists g', applier r g a = Some g' /\ has_content g' = true.
Proof.
  intros Hg Hlevel Ha%list_elem_of_In.
  destruct r as [|level|]; cbn [enumerator applier] in *.
  - apply possible_double_cuts_resolve in Ha
      as (path & i & p & outer & -> & Hp & Hout & Hshape).
    apply shape_has_inner in Hshape as (inner & Hsgs & _).
    assert (Hin : at_index (subgraphs outer) 0 = Some inner) by (by rewrite Hsgs).
    exists (update_at (splice i inner) path g).
    split; [by apply (double_cut_splices g p outer inner)|].
    apply (has_content_update_at _ _ _ p); [done | done |].
    apply (splice_has_content p outer inner);
      [exact (has_content_node_at path g p Hg Hp) | done | done].
  - specialize (Hlevel level eq_refl).
    apply possible_erasures_resolve in Ha
      as (path & i & p & -> & Hp & Hi & _ & [Hminus | Hsole]); [lia|].
    exists (update_at (remove_element i) path g).
    split; [by apply (erase_removes g p)|].
    apply (has_content_update_at _ _ _ p); [done | done |].
    apply remove_element_has_content;
      [exact (has_content_node_at path g p Hg Hp) | done | exact (not_sole_size p i Hsole Hi)].
  - apply possible_deiterations_resolve in Ha
      as (j & sub & path & i & p & -> & Hsub & Hp & Hsize & Htarget).
    assert (Hp' : node_at g (j :: path) = Some p).
    { cbn [node_at]. by rewrite Hsub. }
    assert (Hi : 0 <= i < size p).
    { unfold size, num_atoms, num_subgraphs in *.
      destruct Htarget as [(k & orig & c & _ & _ & Hc & _) | (atom & _ & Hge & Hat)].
      - apply at_index_Some in Hc as [Hc _]. lia.
      - apply at_index_Some in Hat as [Hat _]. lia. }
    exists (update_at (remove_element i) (j :: path) g). split.
    + unfold deiterate. rewrite deiterate_helper_erase_helper.
      by apply (erase_removes g p).
    + apply (has_content_update_at _ _ _ p); [done | done |].
      apply remove_element_has_content;
        [exact (has_content_node_at (j :: path) g p Hg Hp') | done | lia].
Qed.

Lemma enumerated_rule_keeps_content_witness :
  exists g', applier (erasure_rule 0) sample_graph [2; 1; 0; 1] = Some g'
             /\ has_content g' = true.
Proof.
  apply enumerated_rule_keeps_content;
    [reflexivity | by intros level [= <-] | vm_compute; tauto].
Defined.
